(** * Mesh generators, camera and GPU mesh of the rendering demo

    The development embeds the two demo programs of the repository,
    [no_test1.cpp] (curved world) and [test3.cpp] (flat world): the
    procedural mesh generators, the free-fly camera and the RAII wrapper
    around the two OpenGL handles of a mesh.

    The C++ code computes on [float]. Every definition below is written once,
    over an abstract scalar type carrying the operations the code uses, and is
    then read at two instances: the real numbers (the arithmetic the code
    approximates) and IEEE-754 binary32 (the arithmetic of the machine, built
    on [SpecFloat] and executable).

    Counts, call sequences and the contents of what is uploaded are proved
    for every scalar arithmetic. Bounds on coordinates and angles are proved
    in real arithmetic for all inputs, and in binary32 where the programs fix
    the inputs (the cube at its default resolution, the ground of half-extent
    20, single mouse events) or where rounding plays no role (the clamp of
    the pitch). What involves [cos] and [sin] is read in real arithmetic. *)

From Stdlib Require Import ZArith List Lia Lra Reals.
From Stdlib Require Import Floats.SpecFloat.
From stdpp Require Import base gmap.
Import ListNotations.

(** ** Scalars *)

(** The operations of C++ [float] used by the programs. [of_int] is the
    implicit conversion of an [int] operand, [fltb a b] is [a < b]. *)
Class Scalar (F : Type) : Type := {
  of_int : Z -> F;
  fadd : F -> F -> F;
  fsub : F -> F -> F;
  fmul : F -> F -> F;
  fdiv : F -> F -> F;
  fneg : F -> F;
  fltb : F -> F -> bool
}.

(** [cos], [sin] and [sqrt] of [<cmath>], and [glm::radians]. *)
Class Trig (F : Type) : Type := {
  fcos : F -> F;
  fsin : F -> F;
  fsqrt : F -> F;
  radians : F -> F
}.

Declare Scope fl_scope.
Delimit Scope fl_scope with fl.
Notation "a + b" := (fadd a b) : fl_scope.
Notation "a - b" := (fsub a b) : fl_scope.
Notation "a * b" := (fmul a b) : fl_scope.
Notation "a / b" := (fdiv a b) : fl_scope.
Notation "- a" := (fneg a) : fl_scope.
Notation "a <? b" := (fltb a b) : fl_scope.

(** A decimal literal [n/d] with [n] and [d] small integers, such as [0.1f]
    (1/10) or [2.5f] (5/2): the quotient of two exactly representable
    integers, so that a correctly rounded division yields the float nearest
    to the decimal. *)
Definition lit {F} `{Scalar F} (n d : Z) : F := (of_int n / of_int d)%fl.

(** *** Real numbers *)

#[export] Instance R_Scalar : Scalar R := {|
  of_int := IZR;
  fadd := Rplus;
  fsub := Rminus;
  fmul := Rmult;
  fdiv := Rdiv;
  fneg := Ropp;
  fltb := fun a b => if Rlt_dec a b then true else false
|}.

#[export] Instance R_Trig : Trig R := {|
  fcos := cos;
  fsin := sin;
  fsqrt := sqrt;
  radians := fun deg => (deg * (PI / 180))%R
|}.

(** *** IEEE-754 binary32 *)

Definition binary32 : Type := spec_float.

Definition b32_prec : Z := 24.
Definition b32_emax : Z := 128.

#[export] Instance b32_Scalar : Scalar binary32 := {|
  of_int := fun z => binary_normalize b32_prec b32_emax z 0 false;
  fadd := SFadd b32_prec b32_emax;
  fsub := SFsub b32_prec b32_emax;
  fmul := SFmul b32_prec b32_emax;
  fdiv := SFdiv b32_prec b32_emax;
  fneg := SFopp;
  fltb := SFltb
|}.

(** [a <= b] on binary32, false on NaN. *)
Definition b32_leb (a b : binary32) : bool := SFleb a b.

Definition b32_is_nan (x : binary32) : bool :=
  match x with S754_nan => true | _ => false end.

(** Neither NaN nor infinite. *)
Definition b32_is_finite (x : binary32) : bool :=
  match x with S754_zero _ | S754_finite _ _ _ => true | _ => false end.

(** [FLT_MAX], the largest finite float: (2^24 - 1) x 2^104. *)
Definition FLT_MAX : binary32 := S754_finite false 16777215 104.

(** ** Vectors and buffers *)

(** [glm::vec3]. *)
Record vec3 (F : Type) : Type := mkvec3 { vx : F; vy : F; vz : F }.
Arguments mkvec3 {F} _ _ _.
Arguments vx {F} _.
Arguments vy {F} _.
Arguments vz {F} _.

(** [for (int i = 0; i < n; ++i) body], threading the state [acc]. *)
Fixpoint for_loop {A : Type} (fuel : nat) (i : Z) (body : Z -> A -> A) (acc : A) : A :=
  match fuel with
  | O => acc
  | S fuel' => for_loop fuel' (i + 1)%Z body (body i acc)
  end.

Definition for_upto {A : Type} (n : Z) (body : Z -> A -> A) (acc : A) : A :=
  for_loop (Z.to_nat n) 0%Z body acc.

(** The values taken by the loop variable of [for_upto n]. *)
Definition range (n : Z) : list Z := map Z.of_nat (seq 0 (Z.to_nat n)).

Section Vectors.
Context {F : Type} `{Scalar F}.

(** [v * s] on [glm::vec3]. *)
Definition vscale (v : vec3 F) (s : F) : vec3 F :=
  mkvec3 (vx v * s)%fl (vy v * s)%fl (vz v * s)%fl.

(** [a + b] on [glm::vec3]. *)
Definition vadd (a b : vec3 F) : vec3 F :=
  mkvec3 (vx a + vx b)%fl (vy a + vy b)%fl (vz a + vz b)%fl.

(** [glm::cross]. *)
Definition cross (x y : vec3 F) : vec3 F :=
  mkvec3 (vy x * vz y - vy y * vz x)%fl
         (vz x * vx y - vz y * vx x)%fl
         (vx x * vy y - vx y * vy x)%fl.

(** [glm::dot]. *)
Definition dot (a b : vec3 F) : F :=
  (vx a * vx b + vy a * vy b + vz a * vz b)%fl.

(** The three floats of a position, as stored in a vertex buffer. *)
Definition coords (p : vec3 F) : list F := [vx p; vy p; vz p].

(** A buffer holding the given positions one after the other. *)
Definition flatten (ps : list (vec3 F)) : list F := flat_map coords ps.

(** The positions a flat buffer holds: its floats taken three at a time, as
    [glVertexAttribPointer(0, 3, GL_FLOAT, GL_FALSE, 3 * sizeof(float), 0)]
    reads them. *)
Fixpoint vertices_of (buf : list F) : list (vec3 F) :=
  match buf with
  | x :: y :: z :: rest => mkvec3 x y z :: vertices_of rest
  | _ => []
  end.
End Vectors.

(** ** Curved world: [no_test1.cpp] *)

Module CurvedWorld.
Section Generators.
Context {F : Type} `{Scalar F}.

(** The lambda [getPoint] of [Cube::addFace], with the variables it
    captures. *)
Definition getPoint (normal side1 side2 : vec3 F) (step : F) (u v : Z) : vec3 F :=
  vadd (vadd (vscale normal (lit 1 2))
             (vscale side1 (of_int u * step - lit 1 2)%fl))
       (vscale side2 (of_int v * step - lit 1 2)%fl).

(** [Cube::addFace]. *)
Definition addFace (vertices : list F) (normal : vec3 F) (res : Z) : list F :=
  let side1 := mkvec3 (vy normal) (vz normal) (vx normal) in
  let side2 := cross normal side1 in
  let step := (of_int 1 / of_int res)%fl in
  for_upto res (fun i vertices =>
    for_upto res (fun j vertices =>
      let p1 := getPoint normal side1 side2 step i j in
      let p2 := getPoint normal side1 side2 step (i + 1) j in
      let p3 := getPoint normal side1 side2 step i (j + 1) in
      let p4 := getPoint normal side1 side2 step (i + 1) (j + 1) in
      let vertices :=
        vertices ++ [vx p1; vy p1; vz p1; vx p2; vy p2; vz p2; vx p3; vy p3; vz p3] in
      vertices ++ [vx p2; vy p2; vz p2; vx p4; vy p4; vz p4; vx p3; vy p3; vz p3])
    vertices) vertices.

(** The six face normals of [Cube::generateSubdividedCube]. *)
Definition faces : list (vec3 F) :=
  [ mkvec3 (of_int 1) (of_int 0) (of_int 0);
    mkvec3 (of_int (-1)) (of_int 0) (of_int 0);
    mkvec3 (of_int 0) (of_int 1) (of_int 0);
    mkvec3 (of_int 0) (of_int (-1)) (of_int 0);
    mkvec3 (of_int 0) (of_int 0) (of_int 1);
    mkvec3 (of_int 0) (of_int 0) (of_int (-1)) ].

(** [Cube::generateSubdividedCube]. *)
Definition generateSubdividedCube (res : Z) : list F :=
  fold_left (fun vertices f => addFace vertices f res) faces [].

(** [Ground::generateVertices] with its local [resolution] as a
    parameter. *)
Definition generateVertices_at (resolution : Z) (size : F) : list F :=
  let step := (size * of_int 2 / of_int resolution)%fl in
  for_upto resolution (fun i vertices =>
    for_upto resolution (fun j vertices =>
      let x := (- size + of_int i * step)%fl in
      let z := (- size + of_int j * step)%fl in
      let vertices := vertices ++ [x; (- of_int 1)%fl; z] in
      let vertices := vertices ++ [(x + step)%fl; (- of_int 1)%fl; z] in
      let vertices := vertices ++ [x; (- of_int 1)%fl; (z + step)%fl] in
      let vertices := vertices ++ [(x + step)%fl; (- of_int 1)%fl; z] in
      let vertices := vertices ++ [(x + step)%fl; (- of_int 1)%fl; (z + step)%fl] in
      vertices ++ [x; (- of_int 1)%fl; (z + step)%fl])
    vertices) [].

(** [int resolution = 500;] *)
Definition resolution : Z := 500.

(** [Ground::generateVertices]. *)
Definition generateVertices (size : F) : list F :=
  generateVertices_at resolution size.
End Generators.
End CurvedWorld.

(** ** Flat world: [test3.cpp] *)

Module FlatWorld.
Section Generators.
Context {F : Type} `{Scalar F}.

(** [Ground::generateVertices]. *)
Definition generateVertices (size : F) : list F :=
  [ (- size)%fl; (- of_int 1)%fl; (- size)%fl;
    size; (- of_int 1)%fl; (- size)%fl;
    (- size)%fl; (- of_int 1)%fl; size;
    size; (- of_int 1)%fl; (- size)%fl;
    size; (- of_int 1)%fl; size;
    (- size)%fl; (- of_int 1)%fl; size ].
End Generators.
End FlatWorld.

(** ** Camera (the same class in both programs) *)

(** [#define Width 1600] and [#define Height 1200]. *)
Definition Width : Z := 1600.
Definition Height : Z := 1200.

Record Camera (F : Type) : Type := mkCamera {
  cameraPos : vec3 F;
  cameraFront : vec3 F;
  cameraUp : vec3 F;
  speed : F;
  yaw : F;
  pitch : F;
  lastX : F;
  lastY : F;
  firstMouse : bool
}.
Arguments mkCamera {F} _ _ _ _ _ _ _ _ _.
Arguments cameraPos {F} _.
Arguments cameraFront {F} _.
Arguments cameraUp {F} _.
Arguments speed {F} _.
Arguments yaw {F} _.
Arguments pitch {F} _.
Arguments lastX {F} _.
Arguments lastY {F} _.
Arguments firstMouse {F} _.

(** The keys [Camera::ProcessKeyboard] polls with [glfwGetKey]. *)
Record Keys : Type := mkKeys {
  KEY_W : bool;
  KEY_S : bool;
  KEY_A : bool;
  KEY_D : bool;
  KEY_SPACE : bool;
  KEY_LEFT_SHIFT : bool
}.

Section CameraOps.
Context {F : Type} `{Scalar F} `{Trig F}.

(** [glm::length]: the square root of the dot product. *)
Definition vlength (v : vec3 F) : F := fsqrt (dot v v).

(** [glm::normalize]: [v * inversesqrt(dot(v, v))]. *)
Definition normalize (v : vec3 F) : vec3 F :=
  vscale v (of_int 1 / fsqrt (dot v v))%fl.

(** [a - b] on [glm::vec3]. *)
Definition vsub (a b : vec3 F) : vec3 F :=
  mkvec3 (vx a - vx b)%fl (vy a - vy b)%fl (vz a - vz b)%fl.

(** The vector [front] of [Camera::updateCameraVectors], before it is
    normalised. *)
Definition front_of (yaw pitch : F) : vec3 F :=
  mkvec3 (fcos (radians yaw) * fcos (radians pitch))%fl
         (fsin (radians pitch))
         (fsin (radians yaw) * fcos (radians pitch))%fl.

(** [Camera::updateCameraVectors]. *)
Definition updateCameraVectors (c : Camera F) : Camera F :=
  let front := front_of (yaw c) (pitch c) in
  mkCamera (cameraPos c) (normalize front) (cameraUp c) (speed c)
           (yaw c) (pitch c) (lastX c) (lastY c) (firstMouse c).

(** [Camera::Camera]. *)
Definition Camera_ctor : Camera F :=
  mkCamera (mkvec3 (of_int 0) (of_int 0) (of_int 4))
           (mkvec3 (of_int 0) (- lit 3 10)%fl (- of_int 1)%fl)
           (mkvec3 (of_int 0) (of_int 1) (of_int 0))
           (lit 5 2)
           (- of_int 90)%fl
           (of_int 0)
           (of_int Width / of_int 2)%fl
           (of_int Height / of_int 2)%fl
           true.

Definition set_cameraPos (c : Camera F) (p : vec3 F) : Camera F :=
  mkCamera p (cameraFront c) (cameraUp c) (speed c)
           (yaw c) (pitch c) (lastX c) (lastY c) (firstMouse c).

(** [Camera::ProcessKeyboard], the polled keys given by [keys]. *)
Definition ProcessKeyboard (c : Camera F) (keys : Keys) (deltaTime : F) : Camera F :=
  let velocity := (speed c * deltaTime)%fl in
  let c := if KEY_W keys
           then set_cameraPos c (vadd (cameraPos c) (vscale (cameraFront c) velocity))
           else c in
  let c := if KEY_S keys
           then set_cameraPos c (vsub (cameraPos c) (vscale (cameraFront c) velocity))
           else c in
  let c := if KEY_A keys
           then set_cameraPos c (vsub (cameraPos c)
                  (vscale (normalize (cross (cameraFront c) (cameraUp c))) velocity))
           else c in
  let c := if KEY_D keys
           then set_cameraPos c (vadd (cameraPos c)
                  (vscale (normalize (cross (cameraFront c) (cameraUp c))) velocity))
           else c in
  let c := if KEY_SPACE keys
           then set_cameraPos c (vadd (cameraPos c) (vscale (cameraUp c) velocity))
           else c in
  if KEY_LEFT_SHIFT keys
  then set_cameraPos c (vsub (cameraPos c) (vscale (cameraUp c) velocity))
  else c.

(** [Camera::ProcessMouseMovement]. *)
Definition ProcessMouseMovement (c : Camera F) (xoffset yoffset : F)
           (constrainPitch : bool) : Camera F :=
  let sensitivity : F := lit 1 10 in
  let xoffset := (xoffset * sensitivity)%fl in
  let yoffset := (yoffset * sensitivity)%fl in
  let yaw' := (yaw c + xoffset)%fl in
  let pitch' := (pitch c + yoffset)%fl in
  let pitch' :=
    if constrainPitch then
      let pitch' := if (of_int 89 <? pitch')%fl then of_int 89 else pitch' in
      if (pitch' <? - of_int 89)%fl then (- of_int 89)%fl else pitch'
    else pitch' in
  updateCameraVectors
    (mkCamera (cameraPos c) (cameraFront c) (cameraUp c) (speed c)
              yaw' pitch' (lastX c) (lastY c) (firstMouse c)).

(** A run of mouse events, each a call of [ProcessMouseMovement] with the
    offsets [(xoffset, yoffset)] and the same [constrainPitch]. *)
Definition mouse_moves (constrainPitch : bool) (c : Camera F)
           (offsets : list (F * F)) : Camera F :=
  fold_left (fun c o => ProcessMouseMovement c (fst o) (snd o) constrainPitch)
            offsets c.
End CameraOps.

(** ** The graphics API, as a recording mock *)

(** Object names handed out by the graphics API ([GLuint]). Name 0 is never
    an object: it is what [glBindBuffer(GL_ARRAY_BUFFER, 0)] unbinds to. *)
Definition GLuint : Type := nat.

(** The shader sources of the programs; their text plays no role here. *)
Inductive ShaderText : Type :=
| vertexShaderSource
| fragmentShaderSource
| groundVertexShaderSource
| groundFragmentShaderSource.

Inductive ShaderKind : Type := GL_VERTEX_SHADER | GL_FRAGMENT_SHADER.

(** The calls the programs issue, with the names the [glGen*] and
    [glCreate*] calls returned. *)
Inductive GLcall (F : Type) : Type :=
| glGenVertexArrays (name : GLuint)
| glGenBuffers (name : GLuint)
| glBindVertexArray (name : GLuint)
| glBindBuffer (name : GLuint)
| glBufferData (bytes : Z) (data : list F)
| glVertexAttribPointer (index size stride offset : Z)
| glEnableVertexAttribArray (index : Z)
| glDrawArrays (first count : Z)
| glDeleteVertexArrays (name : GLuint)
| glDeleteBuffers (name : GLuint)
| glCreateShader (kind : ShaderKind) (name : GLuint)
| glShaderSource (shader : GLuint) (source : ShaderText)
| glCompileShader (shader : GLuint)
| glCreateProgram (name : GLuint)
| glAttachShader (program shader : GLuint)
| glLinkProgram (program : GLuint)
| glDeleteShader (shader : GLuint).
Arguments glGenVertexArrays {F} _.
Arguments glGenBuffers {F} _.
Arguments glBindVertexArray {F} _.
Arguments glBindBuffer {F} _.
Arguments glBufferData {F} _ _.
Arguments glVertexAttribPointer {F} _ _ _ _.
Arguments glEnableVertexAttribArray {F} _.
Arguments glDrawArrays {F} _ _.
Arguments glDeleteVertexArrays {F} _.
Arguments glDeleteBuffers {F} _.
Arguments glCreateShader {F} _ _.
Arguments glShaderSource {F} _ _.
Arguments glCompileShader {F} _.
Arguments glCreateProgram {F} _.
Arguments glAttachShader {F} _ _.
Arguments glLinkProgram {F} _.
Arguments glDeleteShader {F} _.

(** The state of the mock: the names in use, the bindings, the contents of
    the buffers, the calls received so far (oldest first) and, in [stale],
    the delete calls that named an object that was not in use. *)
Record GL (F : Type) : Type := mkGL {
  vertex_arrays : gset GLuint;
  buffers : gset GLuint;
  shader_objects : gset GLuint;
  vertex_array_binding : GLuint;
  array_buffer_binding : GLuint;
  buffer_store : gmap GLuint (list F);
  calls : list (GLcall F);
  stale : list (GLcall F)
}.
Arguments mkGL {F} _ _ _ _ _ _ _ _.
Arguments vertex_arrays {F} _.
Arguments buffers {F} _.
Arguments shader_objects {F} _.
Arguments vertex_array_binding {F} _.
Arguments array_buffer_binding {F} _.
Arguments buffer_store {F} _.
Arguments calls {F} _.
Arguments stale {F} _.

(** A fresh context: no object, nothing bound, no call yet. *)
Definition GL_init {F : Type} : GL F := mkGL ∅ ∅ ∅ 0 0 ∅ [] [].

(** Computations that talk to the graphics API. *)
Definition GLM (F A : Type) : Type := GL F -> A * GL F.

#[export] Instance GLM_ret {F} : MRet (GLM F) := fun A a g => (a, g).
#[export] Instance GLM_bind {F} : MBind (GLM F) :=
  fun A B k m g => let '(a, g') := m g in k a g'.

(** The state a computation leaves, and the value it returns. *)
Definition exec {F A} (m : GLM F A) (g : GL F) : GL F := snd (m g).
Definition eval {F A} (m : GLM F A) (g : GL F) : A := fst (m g).

(** How often a call satisfying [p] occurs in a log. *)
Definition count_calls {F} (p : GLcall F -> bool) (log : list (GLcall F)) : nat :=
  length (List.filter p log).

Definition is_create_vertex_array {F} (c : GLcall F) : bool :=
  match c with glGenVertexArrays _ => true | _ => false end.
Definition is_create_buffer {F} (c : GLcall F) : bool :=
  match c with glGenBuffers _ => true | _ => false end.
Definition is_destroy_vertex_array {F} (c : GLcall F) : bool :=
  match c with glDeleteVertexArrays _ => true | _ => false end.
Definition is_destroy_buffer {F} (c : GLcall F) : bool :=
  match c with glDeleteBuffers _ => true | _ => false end.

Section Mock.
Context {F : Type}.

Definition record (c : GLcall F) (g : GL F) : GL F :=
  mkGL (vertex_arrays g) (buffers g) (shader_objects g)
       (vertex_array_binding g) (array_buffer_binding g)
       (buffer_store g) (calls g ++ [c]) (stale g).

(** [glGenVertexArrays(1, &name)]: an unused, non-zero name. *)
Definition GenVertexArrays : GLM F GLuint := fun g =>
  let name := fresh ({[0]} ∪ vertex_arrays g) in
  let g := record (glGenVertexArrays name) g in
  (name, mkGL ({[name]} ∪ vertex_arrays g) (buffers g) (shader_objects g)
              (vertex_array_binding g) (array_buffer_binding g)
              (buffer_store g) (calls g) (stale g)).

(** [glGenBuffers(1, &name)]. *)
Definition GenBuffers : GLM F GLuint := fun g =>
  let name := fresh ({[0]} ∪ buffers g) in
  let g := record (glGenBuffers name) g in
  (name, mkGL (vertex_arrays g) ({[name]} ∪ buffers g) (shader_objects g)
              (vertex_array_binding g) (array_buffer_binding g)
              (buffer_store g) (calls g) (stale g)).

Definition BindVertexArray (name : GLuint) : GLM F unit := fun g =>
  let g := record (glBindVertexArray name) g in
  (tt, mkGL (vertex_arrays g) (buffers g) (shader_objects g)
            name (array_buffer_binding g)
            (buffer_store g) (calls g) (stale g)).

(** [glBindBuffer(GL_ARRAY_BUFFER, name)]. *)
Definition BindBuffer (name : GLuint) : GLM F unit := fun g =>
  let g := record (glBindBuffer name) g in
  (tt, mkGL (vertex_arrays g) (buffers g) (shader_objects g)
            (vertex_array_binding g) name
            (buffer_store g) (calls g) (stale g)).

(** [glBufferData(GL_ARRAY_BUFFER, bytes, data, GL_STATIC_DRAW)]: the data
    becomes the contents of the buffer bound to [GL_ARRAY_BUFFER]; with
    nothing bound the call has no effect. *)
Definition BufferData (bytes : Z) (data : list F) : GLM F unit := fun g =>
  let g := record (glBufferData bytes data) g in
  (tt, mkGL (vertex_arrays g) (buffers g) (shader_objects g)
            (vertex_array_binding g) (array_buffer_binding g)
            (if decide (array_buffer_binding g = 0) then buffer_store g
             else <[array_buffer_binding g := data]> (buffer_store g))
            (calls g) (stale g)).

Definition VertexAttribPointer (index size stride offset : Z) : GLM F unit :=
  fun g => (tt, record (glVertexAttribPointer index size stride offset) g).

Definition EnableVertexAttribArray (index : Z) : GLM F unit :=
  fun g => (tt, record (glEnableVertexAttribArray index) g).

(** [glDrawArrays(GL_TRIANGLES, first, count)]. *)
Definition DrawArrays (first count : Z) : GLM F unit :=
  fun g => (tt, record (glDrawArrays first count) g).

(** [glDeleteVertexArrays(1, &name)]: the name is released; a name that is
    not in use is noted in [stale]. *)
Definition DeleteVertexArrays (name : GLuint) : GLM F unit := fun g =>
  let g := record (glDeleteVertexArrays name) g in
  (tt, mkGL (vertex_arrays g ∖ {[name]}) (buffers g) (shader_objects g)
            (vertex_array_binding g) (array_buffer_binding g)
            (buffer_store g) (calls g)
            (if decide (name ∈ vertex_arrays g) then stale g
             else stale g ++ [glDeleteVertexArrays name])).

(** [glDeleteBuffers(1, &name)]. *)
Definition DeleteBuffers (name : GLuint) : GLM F unit := fun g =>
  let g := record (glDeleteBuffers name) g in
  (tt, mkGL (vertex_arrays g) (buffers g ∖ {[name]}) (shader_objects g)
            (vertex_array_binding g) (array_buffer_binding g)
            (delete name (buffer_store g)) (calls g)
            (if decide (name ∈ buffers g) then stale g
             else stale g ++ [glDeleteBuffers name])).

(** [glCreateShader] and [glCreateProgram] draw from one space of names. *)
Definition CreateShader (kind : ShaderKind) : GLM F GLuint := fun g =>
  let name := fresh ({[0]} ∪ shader_objects g) in
  let g := record (glCreateShader kind name) g in
  (name, mkGL (vertex_arrays g) (buffers g) ({[name]} ∪ shader_objects g)
              (vertex_array_binding g) (array_buffer_binding g)
              (buffer_store g) (calls g) (stale g)).

Definition CreateProgram : GLM F GLuint := fun g =>
  let name := fresh ({[0]} ∪ shader_objects g) in
  let g := record (glCreateProgram name) g in
  (name, mkGL (vertex_arrays g) (buffers g) ({[name]} ∪ shader_objects g)
              (vertex_array_binding g) (array_buffer_binding g)
              (buffer_store g) (calls g) (stale g)).

Definition ShaderSource (shader : GLuint) (source : ShaderText) : GLM F unit :=
  fun g => (tt, record (glShaderSource shader source) g).

Definition CompileShader (shader : GLuint) : GLM F unit :=
  fun g => (tt, record (glCompileShader shader) g).

Definition AttachShader (program shader : GLuint) : GLM F unit :=
  fun g => (tt, record (glAttachShader program shader) g).

Definition LinkProgram (program : GLuint) : GLM F unit :=
  fun g => (tt, record (glLinkProgram program) g).

Definition DeleteShader (shader : GLuint) : GLM F unit := fun g =>
  let g := record (glDeleteShader shader) g in
  (tt, mkGL (vertex_arrays g) (buffers g) (shader_objects g ∖ {[shader]})
            (vertex_array_binding g) (array_buffer_binding g)
            (buffer_store g) (calls g) (stale g)).
End Mock.

(** ** [Object]: the mesh on the GPU (the same class in both programs) *)

Record Object : Type := mkObject {
  VBO : GLuint;
  VAO : GLuint;
  vertexCount : Z
}.

(** [sizeof(float)]. *)
Definition sizeof_float : Z := 4.

(** [INT_MAX] of a 32-bit [int]. *)
Definition INT_MAX : Z := 2147483647.

(** [(int) n] for a [size_t] value [n]: the conversion to a 32-bit [int],
    which keeps [n] up to [INT_MAX] and wraps modulo 2^32 beyond. *)
Definition int_of_size (n : Z) : Z :=
  (Z.modulo (n + 2147483648) 4294967296 - 2147483648)%Z.

Section ObjectOps.
Context {F : Type}.

(** [Object::Object] from [vertices] and [size]: [vertices] is the array
    the pointer designates, of which [glBufferData] reads the first [size]
    floats. *)
Definition Object_ctor (vertices : list F) (size : Z) : GLM F Object :=
  let vertexCount := (size ÷ 3)%Z in
  VAO ← GenVertexArrays;
  VBO ← GenBuffers;
  BindVertexArray VAO;;
  BindBuffer VBO;;
  BufferData (size * sizeof_float) (firstn (Z.to_nat size) vertices);;
  VertexAttribPointer 0 3 (3 * sizeof_float) 0;;
  EnableVertexAttribArray 0;;
  BindBuffer 0;;
  BindVertexArray 0;;
  mret (mkObject VBO VAO vertexCount).

(** [Object::~Object]. *)
Definition Object_dtor (o : Object) : GLM F unit :=
  DeleteVertexArrays (VAO o);;
  DeleteBuffers (VBO o).

(** [Object::Draw]. *)
Definition Draw (o : Object) : GLM F unit :=
  BindVertexArray (VAO o);;
  DrawArrays 0 (vertexCount o);;
  BindVertexArray 0.

(** The class declares a destructor and no copy operation, so that C++
    supplies the implicit copy constructor, which copies the three members
    and makes no call to the graphics API. *)
Definition Object_copy (o : Object) : GLM F Object :=
  mret (mkObject (VBO o) (VAO o) (vertexCount o)).
End ObjectOps.

(** ** [Program]: a linked shader program *)

Record Program : Type := mkProgram {
  vertexShader : GLuint;
  fragmentShader : GLuint;
  shaderProgram : GLuint
}.

Section ProgramOps.
Context {F : Type}.

(** [Program::createShaderProgram]. The compile and link status is only
    read to print a diagnostic, which leaves no trace in the state. *)
Definition createShaderProgram (vertexSource fragmentSource : ShaderText)
  : GLM F Program :=
  vertexShader ← CreateShader GL_VERTEX_SHADER;
  ShaderSource vertexShader vertexSource;;
  CompileShader vertexShader;;
  fragmentShader ← CreateShader GL_FRAGMENT_SHADER;
  ShaderSource fragmentShader fragmentSource;;
  CompileShader fragmentShader;;
  shaderProgram ← CreateProgram;
  AttachShader shaderProgram vertexShader;;
  AttachShader shaderProgram fragmentShader;;
  LinkProgram shaderProgram;;
  DeleteShader vertexShader;;
  DeleteShader fragmentShader;;
  mret (mkProgram vertexShader fragmentShader shaderProgram).

(** [Program::Program] from a vertex and a fragment source. *)
Definition Program_ctor (vertexSource fragmentSource : ShaderText) : GLM F Program :=
  createShaderProgram vertexSource fragmentSource.
End ProgramOps.

(** ** [Ground] and [Cube] *)

(** A [Ground] is an [Object] (its base class) with a [Program]. *)
Record Ground : Type := mkGround {
  Ground_Object : Object;
  groundprogram : Program
}.

(** A [Cube] is an [Object] (its base class) with a [Program]. *)
Record Cube : Type := mkCube {
  Cube_Object : Object;
  cubeprogram : Program
}.

Module FlatScene.
Section Ctors.
Context {F : Type} `{Scalar F}.

(** [Ground::Ground] from a size, a vertex and a fragment source. *)
Definition Ground_ctor3 (size : F) (vertexSource fragmentSource : ShaderText)
  : GLM F Ground :=
  base ← Object_ctor (FlatWorld.generateVertices size)
                     (Z.of_nat (length (FlatWorld.generateVertices size)));
  groundprogram ← Program_ctor vertexSource fragmentSource;
  mret (mkGround base groundprogram).

(** [Ground(float size = 20.0f) : Ground(20.0f, vertexShaderSource,
    fragmentShaderSource) {}]. *)
Definition Ground_ctor (size : F) : GLM F Ground :=
  Ground_ctor3 (of_int 20) vertexShaderSource fragmentShaderSource.
End Ctors.
End FlatScene.

Module CurvedScene.
Section Ctors.
Context {F : Type} `{Scalar F}.

(** [Ground::Ground] from a size, a vertex and a fragment source: the
    generator runs twice, once for the data and once for the length, which
    is cast to [int]. *)
Definition Ground_ctor3 (size : F) (vertexSource fragmentSource : ShaderText)
  : GLM F Ground :=
  base ← Object_ctor (CurvedWorld.generateVertices size)
                     (int_of_size
                        (Z.of_nat (length (CurvedWorld.generateVertices size))));
  groundprogram ← Program_ctor vertexSource fragmentSource;
  mret (mkGround base groundprogram).

(** [Ground(float size = 100.0f)], which hands its size on. *)
Definition Ground_ctor (size : F) : GLM F Ground :=
  Ground_ctor3 size groundVertexShaderSource groundFragmentShaderSource.

(** [Cube(int res = 10)], with the default program of [Program::Program()]:
    the length of the generated buffer is cast to [int]. *)
Definition Cube_ctor (res : Z) : GLM F Cube :=
  base ← Object_ctor (CurvedWorld.generateSubdividedCube res)
                     (int_of_size
                        (Z.of_nat (length (CurvedWorld.generateSubdividedCube res))));
  cubeprogram ← Program_ctor vertexShaderSource fragmentShaderSource;
  mret (mkCube base cubeprogram).

(** The default argument of [Cube::Cube]. *)
Definition Cube_default_res : Z := 10.
End Ctors.
End CurvedScene.

(** ** Programs over the public interface of [Object] *)

(** What client code can do with objects of class [Object]: define one from
    a vertex array, define one as a copy of another, assign one to another,
    draw one, and let one reach the end of its lifetime. Objects are numbered
    in the order of their definition. *)
Inductive Stmt (F : Type) : Type :=
| Construct (vertices : list F) (size : Z)
| Copy (k : nat)
| Assign (k k' : nat)
| DrawObject (k : nat)
| Destroy (k : nat).
Arguments Construct {F} _ _.
Arguments Copy {F} _.
Arguments Assign {F} _ _.
Arguments DrawObject {F} _.
Arguments Destroy {F} _.

(** The objects defined so far, each with a flag telling whether its
    lifetime is still running. *)
Abbreviation Env := (list (Object * bool)).

Section Run.
Context {F : Type}.

(** One statement. The destructor of an object runs once, at the end of
    its lifetime, as in every program with defined behaviour; statements that
    name no object, or an object whose lifetime has ended, do nothing.
    [Assign k k'] is [o_k = o_k'] with the implicit copy assignment, which
    copies the three members as the copy constructor does. *)
Definition step (s : Stmt F) (st : Env * GL F) : Env * GL F :=
  let '(env, g) := st in
  match s with
  | Construct vertices size =>
      let '(o, g') := Object_ctor vertices size g in (env ++ [(o, true)], g')
  | Copy k =>
      match env !! k with
      | Some (o, true) =>
          let '(o', g') := Object_copy o g in (env ++ [(o', true)], g')
      | _ => (env, g)
      end
  | Assign k k' =>
      match env !! k, env !! k' with
      | Some (_, true), Some (o', true) =>
          let '(o, g') := Object_copy o' g in (<[k := (o, true)]> env, g')
      | _, _ => (env, g)
      end
  | DrawObject k =>
      match env !! k with
      | Some (o, true) => (env, exec (Draw o) g)
      | _ => (env, g)
      end
  | Destroy k =>
      match env !! k with
      | Some (o, true) => (<[k := (o, false)]> env, exec (Object_dtor o) g)
      | _ => (env, g)
      end
  end.

Definition run (prog : list (Stmt F)) (st : Env * GL F) : Env * GL F :=
  fold_left (fun st s => step s st) prog st.

(** The statements that duplicate an [Object]. *)
Definition is_Copy (s : Stmt F) : bool :=
  match s with Copy _ | Assign _ _ => true | _ => false end.
End Run.

(** ** The positions the generators emit *)

Section Emitted.
Context {F : Type} `{Scalar F}.

(** The six positions [Cube::addFace] appends for the cell [(i, j)]. *)
Definition cube_cell (normal : vec3 F) (res i j : Z) : list (vec3 F) :=
  let side1 := mkvec3 (vy normal) (vz normal) (vx normal) in
  let side2 := cross normal side1 in
  let step := (of_int 1 / of_int res)%fl in
  let p1 := CurvedWorld.getPoint normal side1 side2 step i j in
  let p2 := CurvedWorld.getPoint normal side1 side2 step (i + 1) j in
  let p3 := CurvedWorld.getPoint normal side1 side2 step i (j + 1) in
  let p4 := CurvedWorld.getPoint normal side1 side2 step (i + 1) (j + 1) in
  [p1; p2; p3; p2; p4; p3].

Definition cube_face (normal : vec3 F) (res : Z) : list (vec3 F) :=
  flat_map (fun i => flat_map (fun j => cube_cell normal res i j) (range res))
           (range res).

(** The six positions the curved-world [Ground::generateVertices] appends
    for the cell [(i, j)]. *)
Definition ground_cell (resolution : Z) (size : F) (i j : Z) : list (vec3 F) :=
  let step := (size * of_int 2 / of_int resolution)%fl in
  let x := (- size + of_int i * step)%fl in
  let z := (- size + of_int j * step)%fl in
  [ mkvec3 x (- of_int 1)%fl z;
    mkvec3 (x + step)%fl (- of_int 1)%fl z;
    mkvec3 x (- of_int 1)%fl (z + step)%fl;
    mkvec3 (x + step)%fl (- of_int 1)%fl z;
    mkvec3 (x + step)%fl (- of_int 1)%fl (z + step)%fl;
    mkvec3 x (- of_int 1)%fl (z + step)%fl ].

Definition ground_grid (resolution : Z) (size : F) : list (vec3 F) :=
  flat_map (fun i => flat_map (fun j => ground_cell resolution size i j)
                              (range resolution))
           (range resolution).
End Emitted.

(** ** Predicates and abbreviations of the statements *)

(** Inside the unit cube centred at the origin. *)
Definition in_unit_cube (p : vec3 R) : Prop :=
  (- (1 / 2) <= vx p <= 1 / 2)%R /\
  (- (1 / 2) <= vy p <= 1 / 2)%R /\
  (- (1 / 2) <= vz p <= 1 / 2)%R.

(** Between -20 and 20 in binary32. *)
Definition b32_within20 (x : binary32) : Prop :=
  b32_leb (- of_int 20)%fl x = true /\ b32_leb x (of_int 20) = true.

(** A pitch between -89 and 89 degrees. *)
Definition pitch_in_bounds (c : Camera R) : Prop := (-89 <= pitch c <= 89)%R.

(** The same on the machine: the pitch is a float between -89 and 89. *)
Definition b32_pitch_in_bounds (c : Camera binary32) : Prop :=
  b32_leb (- of_int 89)%fl (pitch c) = true /\ b32_leb (pitch c) (of_int 89) = true.

(** What the C library and GLM give at an infinity and at NaN, in binary32:
    [glm::radians] is a multiplication by a positive constant and maps an
    infinity to itself, [cos] and [sin] of an infinity are NaN, and the
    square root of NaN is NaN. *)
Definition libm_at_infinity (T : Trig binary32) : Prop :=
  (forall s : bool,
      radians (S754_infinity s) = S754_infinity s /\
      b32_is_nan (fcos (S754_infinity s)) = true /\
      b32_is_nan (fsin (S754_infinity s)) = true) /\
  b32_is_nan (fsqrt S754_nan) = true.

Section MockNames.
Context {F : Type}.

(** The names the next [glGenVertexArrays] and [glGenBuffers] return. *)
Definition next_vertex_array (g : GL F) : GLuint := fresh ({[0]} ∪ vertex_arrays g).
Definition next_buffer (g : GL F) : GLuint := fresh ({[0]} ∪ buffers g).

(** The calls of the constructor, in order. *)
Definition ctor_calls (vertices : list F) (size : Z) (vao vbo : GLuint)
  : list (GLcall F) :=
  [ glGenVertexArrays vao; glGenBuffers vbo;
    glBindVertexArray vao; glBindBuffer vbo;
    glBufferData (size * sizeof_float) (firstn (Z.to_nat size) vertices);
    glVertexAttribPointer 0 3 (3 * sizeof_float) 0;
    glEnableVertexAttribArray 0;
    glBindBuffer 0; glBindVertexArray 0 ].

(** The calls of the destructor, in order. *)
Definition dtor_calls (o : Object) : list (GLcall F) :=
  [ glDeleteVertexArrays (VAO o); glDeleteBuffers (VBO o) ].
End MockNames.

(** The object numbered [k] is within its lifetime. *)
Definition alive (env : Env) (k : nat) (o : Object) : Prop :=
  env !! k = Some (o, true).

(** No stale release so far, the names of the objects within their lifetime
    are in use, and no two such objects share a name. *)
Definition consistent {F : Type} (st : Env * GL F) : Prop :=
  stale (snd st) = [] /\
  (forall k o, alive (fst st) k o ->
     VAO o ∈ vertex_arrays (snd st) /\ VBO o ∈ buffers (snd st)) /\
  (forall k k' o o', k <> k' -> alive (fst st) k o -> alive (fst st) k' o' ->
     VAO o <> VAO o' /\ VBO o <> VBO o').

(** ** [Engine] and the frame loop of [no_test1.cpp] *)

(** What the programs use of a GLFW window: whether
    [glfwSetWindowUserPointer] has stored the engine in it, and its close
    flag. *)
Record Window : Type := mkWindow {
  user_pointer : bool;
  should_close : bool
}.

(** [Engine], with its three static members. The cursor positions and the
    clock readings, [double] in the code, are read in the scalar type of the
    camera. *)
Record Engine (F : Type) : Type := mkEngine {
  window : Window;
  camera : Camera F;
  lastFrame : F;
  deltaTime : F;
  Engine_firstMouse : bool;
  Engine_lastX : F;
  Engine_lastY : F
}.
Arguments mkEngine {F} _ _ _ _ _ _ _.
Arguments window {F} _.
Arguments camera {F} _.
Arguments lastFrame {F} _.
Arguments deltaTime {F} _.
Arguments Engine_firstMouse {F} _.
Arguments Engine_lastX {F} _.
Arguments Engine_lastY {F} _.

(** What reaches a camera during its lifetime. *)
Inductive CameraEvent (F : Type) : Type :=
| KeyboardEvent (keys : Keys) (deltaTime : F)
| MouseEvent (xoffset yoffset : F) (constrainPitch : bool).
Arguments KeyboardEvent {F} _ _.
Arguments MouseEvent {F} _ _ _.

(** What reaches an engine: a cursor position, through
    [Engine::mouse_callback], or a frame, through [Engine::processInput],
    with the state of the escape key, the keys the camera polls and the
    reading of [glfwGetTime]. *)
Inductive EngineEvent (F : Type) : Type :=
| CursorPos (xpos ypos : F)
| FrameInput (escape : bool) (keys : Keys) (currentFrame : F).
Arguments CursorPos {F} _ _.
Arguments FrameInput {F} _ _ _.

Section EngineOps.
Context {F : Type} `{Scalar F} `{Trig F}.

Definition camera_step (c : Camera F) (ev : CameraEvent F) : Camera F :=
  match ev with
  | KeyboardEvent keys deltaTime => ProcessKeyboard c keys deltaTime
  | MouseEvent xoffset yoffset constrainPitch =>
      ProcessMouseMovement c xoffset yoffset constrainPitch
  end.

Definition camera_run (c : Camera F) (evs : list (CameraEvent F)) : Camera F :=
  fold_left camera_step evs c.

(** The engine once [Engine::init] has run and the window exists: the
    camera as constructed, [lastFrame = 0.0f], the statics as initialised at
    namespace scope, the user pointer set by [creat_window]. [deltaTime] is
    not initialised and holds [deltaTime0]. *)
Definition Engine_init (deltaTime0 : F) : Engine F :=
  mkEngine (mkWindow true false) Camera_ctor (of_int 0) deltaTime0
           true (of_int Width / of_int 2)%fl (of_int Height / of_int 2)%fl.

(** [Engine::mouse_callback]. *)
Definition mouse_callback (e : Engine F) (xpos ypos : F) : Engine F :=
  if negb (user_pointer (window e)) then e
  else
    let e :=
      if Engine_firstMouse e
      then mkEngine (window e) (camera e) (lastFrame e) (deltaTime e)
                    false xpos ypos
      else e in
    let xoffset := (xpos - Engine_lastX e)%fl in
    let yoffset := (Engine_lastY e - ypos)%fl in
    mkEngine (window e)
             (ProcessMouseMovement (camera e) xoffset yoffset true)
             (lastFrame e) (deltaTime e)
             (Engine_firstMouse e) xpos ypos.

(** [Engine::processInput]. *)
Definition processInput (e : Engine F) (escape : bool) (keys : Keys)
           (currentFrame : F) : Engine F :=
  let w := if escape then mkWindow (user_pointer (window e)) true else window e in
  let deltaTime := (currentFrame - lastFrame e)%fl in
  mkEngine w (ProcessKeyboard (camera e) keys deltaTime)
           currentFrame deltaTime
           (Engine_firstMouse e) (Engine_lastX e) (Engine_lastY e).

Definition engine_step (e : Engine F) (ev : EngineEvent F) : Engine F :=
  match ev with
  | CursorPos xpos ypos => mouse_callback e xpos ypos
  | FrameInput escape keys currentFrame => processInput e escape keys currentFrame
  end.

Definition engine_run (e : Engine F) (evs : list (EngineEvent F)) : Engine F :=
  fold_left engine_step evs e.

(** [#define PI 3.14159265358979323846]. *)
Definition PI_macro : F := lit 314159265358979323846 100000000000000000000.

(** The vector by which [main] moves cube [i] of the five away from the
    axis: [glm::vec3(5.0f*cos(2*i*PI/5.0), 0.0f, -5.0f*sin(2*i*PI/5.0))]. *)
Definition cube_offset (i : Z) : vec3 F :=
  let angle := (of_int (2 * i) * PI_macro / of_int 5)%fl in
  mkvec3 (of_int 5 * fcos angle)%fl (of_int 0) (- of_int 5 * fsin angle)%fl.

(** The normal of the triangle [a b c], by the right-hand rule: towards the
    side from which the three vertices are seen counter-clockwise. *)
Definition tri_normal (a b c : vec3 F) : vec3 F := cross (vsub b a) (vsub c a).
End EngineOps.

(** The triangles [glDrawArrays(GL_TRIANGLES, ...)] assembles: the positions
    taken three at a time. *)
Fixpoint triangles_of {F : Type} (ps : list (vec3 F)) : list (vec3 F * vec3 F * vec3 F) :=
  match ps with
  | a :: b :: c :: rest => (a, b, c) :: triangles_of rest
  | _ => []
  end.

(** The keys held, as the direction of the move they ask for: forward less
    backward along the forward vector, right less left along the strafe
    direction, up less down along the up vector. *)
Definition key_weight (pressed : bool) : R := if pressed then 1%R else 0%R.

Definition move_direction (c : Camera R) (keys : Keys) : vec3 R :=
  let strafe := normalize (cross (cameraFront c) (cameraUp c)) in
  vadd (vadd (vscale (cameraFront c) (key_weight (KEY_W keys) - key_weight (KEY_S keys))%R)
             (vscale strafe (key_weight (KEY_D keys) - key_weight (KEY_A keys))%R))
       (vscale (cameraUp c) (key_weight (KEY_SPACE keys) - key_weight (KEY_LEFT_SHIFT keys))%R).

(** ** The cube of the flat world: [test3.cpp] *)

Module FlatCube.
Section Data.
Context {F : Type} `{Scalar F}.

(** [0.5f]. *)
Definition half : F := lit 1 2.

(** [Cube::cubeVertices], face after face: back, front, left, right,
    bottom, top. *)
Definition cubeVertices : list F :=
  [ (- half)%fl; (- half)%fl; (- half)%fl;
    half; (- half)%fl; (- half)%fl;
    half; half; (- half)%fl;
    half; half; (- half)%fl;
    (- half)%fl; half; (- half)%fl;
    (- half)%fl; (- half)%fl; (- half)%fl;

    (- half)%fl; (- half)%fl; half;
    half; (- half)%fl; half;
    half; half; half;
    half; half; half;
    (- half)%fl; half; half;
    (- half)%fl; (- half)%fl; half;

    (- half)%fl; half; half;
    (- half)%fl; half; (- half)%fl;
    (- half)%fl; (- half)%fl; (- half)%fl;
    (- half)%fl; (- half)%fl; (- half)%fl;
    (- half)%fl; (- half)%fl; half;
    (- half)%fl; half; half;

    half; half; half;
    half; half; (- half)%fl;
    half; (- half)%fl; (- half)%fl;
    half; (- half)%fl; (- half)%fl;
    half; (- half)%fl; half;
    half; half; half;

    (- half)%fl; (- half)%fl; (- half)%fl;
    half; (- half)%fl; (- half)%fl;
    half; (- half)%fl; half;
    half; (- half)%fl; half;
    (- half)%fl; (- half)%fl; half;
    (- half)%fl; (- half)%fl; (- half)%fl;

    (- half)%fl; half; (- half)%fl;
    half; half; (- half)%fl;
    half; half; half;
    half; half; half;
    (- half)%fl; half; half;
    (- half)%fl; half; (- half)%fl ].

(** [Cube() : Object(cubeVertices, 108), cubeprogram() {}]. *)
Definition Cube_ctor : GLM F Cube :=
  base ← Object_ctor cubeVertices 108;
  cubeprogram ← Program_ctor vertexShaderSource fragmentShaderSource;
  mret (mkCube base cubeprogram).
End Data.
End FlatCube.

(** How a triangle of a mesh around the origin faces: the scalar product of
    its right-hand normal with its first vertex, positive when the triangle
    is counter-clockwise seen from outside, negative when clockwise. *)
Definition facing {F : Type} `{Scalar F} (t : vec3 F * vec3 F * vec3 F) : F :=
  let '(a, b, c) := t in dot (tri_normal a b c) a.

(** One frame's draws: [Draw] on each object in turn. *)
Definition draw_all {F : Type} (objects : list Object) (g : GL F) : GL F :=
  fold_left (fun g o => exec (Draw o) g) objects g.

(** The cursor positions among the events of an engine, in order. *)
Definition cursor_positions {F : Type} (evs : list (EngineEvent F)) : list (F * F) :=
  flat_map (fun ev => match ev with
                      | CursorPos xpos ypos => [(xpos, ypos)]
                      | FrameInput _ _ _ => []
                      end) evs.

(** Whether an event is a frame that saw the escape key pressed. *)
Definition escape_pressed {F : Type} (ev : EngineEvent F) : bool :=
  match ev with
  | CursorPos _ _ => false
  | FrameInput escape _ _ => escape
  end.

(** Runs a computation on the mock, call by call, on a state given by its
    fields. *)
Ltac gl_run :=
  cbv beta iota zeta delta
    [exec eval mbind mret GLM_bind GLM_ret
     GenVertexArrays GenBuffers BindVertexArray BindBuffer BufferData
     VertexAttribPointer EnableVertexAttribArray DrawArrays
     DeleteVertexArrays DeleteBuffers CreateShader CreateProgram
     ShaderSource CompileShader AttachShader LinkProgram DeleteShader
     record vertex_arrays buffers shader_objects vertex_array_binding
     array_buffer_binding buffer_store calls stale fst snd].

(** * Proofs *)

(** ** Loops and buffers *)

Lemma for_loop_ext {A : Type} (body body' : Z -> A -> A) :
  (forall i acc, body i acc = body' i acc) ->
  forall fuel i acc, for_loop fuel i body acc = for_loop fuel i body' acc.
Proof.
  intros Hext fuel. induction fuel as [|fuel IH]; intros i acc; simpl.
  - reflexivity.
  - rewrite Hext. apply IH.
Qed.

Lemma for_loop_append {A : Type} (g : Z -> list A) :
  forall fuel i acc,
    for_loop fuel i (fun i acc => acc ++ g i) acc =
    acc ++ flat_map g (map (fun k => (i + Z.of_nat k)%Z) (seq 0 fuel)).
Proof.
  induction fuel as [|fuel IH]; intros i acc; simpl.
  - now rewrite app_nil_r.
  - rewrite IH, <- app_assoc. f_equal.
    replace (i + Z.of_nat 0)%Z with i by lia. f_equal.
    rewrite <- seq_shift, map_map. f_equal.
    apply map_ext. intros k. lia.
Qed.

(** A loop whose body only appends is a [flat_map] over its range. *)
Lemma for_upto_append {A : Type} (body : Z -> list A -> list A) (g : Z -> list A) :
  (forall i acc, body i acc = acc ++ g i) ->
  forall n acc, for_upto n body acc = acc ++ flat_map g (range n).
Proof.
  intros Hbody n acc. unfold for_upto, range.
  rewrite (for_loop_ext body (fun i acc => acc ++ g i) Hbody).
  rewrite for_loop_append. do 2 f_equal.
Qed.

(** From here on loops are reasoned about through [for_upto_append] only;
    the loop itself is not to be unfolded when two buffers are compared. *)
Opaque for_loop.

Lemma range_length (n : Z) : length (range n) = Z.to_nat n.
Proof. unfold range. now rewrite length_map, length_seq. Qed.

Lemma In_range (n i : Z) : In i (range n) <-> (0 <= i < n)%Z.
Proof.
  unfold range. rewrite in_map_iff. split.
  - intros (k & <- & Hk). apply in_seq in Hk. lia.
  - intros Hi. exists (Z.to_nat i). split; [lia|]. apply in_seq. lia.
Qed.

Lemma flat_map_length_const {A B : Type} (f : A -> list B) (k : nat) (l : list A) :
  (forall x, length (f x) = k) -> length (flat_map f l) = (k * length l)%nat.
Proof.
  intros Hk. induction l as [|x l IH]; simpl.
  - lia.
  - rewrite length_app, Hk, IH. lia.
Qed.

Section BufferFacts.
Context {F : Type} `{Scalar F}.

Lemma flatten_app (ps qs : list (vec3 F)) :
  flatten (ps ++ qs) = flatten ps ++ flatten qs.
Proof. apply flat_map_app. Qed.

Lemma flatten_flat_map {A : Type} (f : A -> list (vec3 F)) (l : list A) :
  flatten (flat_map f l) = flat_map (fun x => flatten (f x)) l.
Proof.
  induction l as [|x l IH]; simpl.
  - reflexivity.
  - now rewrite flatten_app, IH.
Qed.

Lemma flatten_length (ps : list (vec3 F)) :
  length (flatten ps) = (3 * length ps)%nat.
Proof. apply flat_map_length_const. reflexivity. Qed.

(** Reading back the positions of a buffer built from positions. *)
Lemma vertices_of_flatten (ps : list (vec3 F)) : vertices_of (flatten ps) = ps.
Proof.
  induction ps as [|[x y z] ps IH]; simpl.
  - reflexivity.
  - now rewrite IH.
Qed.
End BufferFacts.

(** ** binary32: comparisons, and where NaN can come from *)

Lemma shr_1_nonneg (mrs : shr_record) :
  (0 <= shr_m mrs)%Z -> (0 <= shr_m (shr_1 mrs))%Z.
Proof.
  destruct mrs as [m r s]. cbn [shr_m]. intros Hm.
  destruct m as [|[p|p|]|p]; cbn; lia.
Qed.

Lemma iter_shr_1_nonneg (p : positive) :
  forall mrs, (0 <= shr_m mrs)%Z -> (0 <= shr_m (SpecFloat.iter_pos shr_1 p mrs))%Z.
Proof.
  induction p as [p IH|p IH|]; intros mrs Hm; cbn [SpecFloat.iter_pos].
  - apply IH, IH, shr_1_nonneg, Hm.
  - apply IH, IH, Hm.
  - apply shr_1_nonneg, Hm.
Qed.

Lemma shr_nonneg (mrs : shr_record) (e n : Z) :
  (0 <= shr_m mrs)%Z -> (0 <= shr_m (fst (shr mrs e n)))%Z.
Proof.
  intros Hm. unfold shr. destruct n; cbn [fst]; auto using iter_shr_1_nonneg.
Qed.

Lemma shr_fexp_nonneg (prec emax m e : Z) (l : location) :
  (0 <= m)%Z -> (0 <= shr_m (fst (shr_fexp prec emax m e l)))%Z.
Proof.
  intros Hm. unfold shr_fexp. apply shr_nonneg.
  destruct l as [|[]]; exact Hm.
Qed.

Lemma round_nearest_even_nonneg (m : Z) (l : location) :
  (0 <= m)%Z -> (0 <= round_nearest_even m l)%Z.
Proof.
  intros Hm. destruct l as [|[]]; cbn; try destruct (Z.even m); lia.
Qed.

(** Rounding a non-negative mantissa never yields NaN. *)
Lemma binary_round_aux_not_nan (prec emax : Z) (s : bool) (m e : Z) (l : location) :
  (0 <= m)%Z -> b32_is_nan (binary_round_aux prec emax s m e l) = false.
Proof.
  intros Hm. unfold binary_round_aux.
  pose proof (shr_fexp_nonneg prec emax m e l Hm) as H1.
  destruct (shr_fexp prec emax m e l) as [mrs' e']. cbn [fst] in H1.
  pose proof (shr_fexp_nonneg prec emax
                (round_nearest_even (shr_m mrs') (loc_of_shr_record mrs')) e' loc_Exact
                (round_nearest_even_nonneg _ _ H1)) as H2.
  destruct (shr_fexp prec emax _ e' loc_Exact) as [mrs'' e'']. cbn [fst] in H2.
  destruct (shr_m mrs'') as [|p|p]; [reflexivity| |lia].
  destruct (Z.leb e'' (emax - prec)); reflexivity.
Qed.

Lemma binary_normalize_not_nan (prec emax m e : Z) (szero : bool) :
  b32_is_nan (binary_normalize prec emax m e szero) = false.
Proof.
  unfold binary_normalize, binary_round.
  destruct m as [|p|p]; [reflexivity| |];
    destruct (shl_align _ _ _) as [mz ez];
    apply binary_round_aux_not_nan; lia.
Qed.

(** A product is NaN only if a factor is, or if it is zero times infinity. *)
Lemma SFmul_not_nan (prec emax : Z) (x y : binary32) :
  b32_is_nan x = false ->
  (exists s m e, y = S754_finite s m e) ->
  b32_is_nan (SFmul prec emax x y) = false.
Proof.
  intros Hx (s & m & e & ->).
  destruct x as [sx|sx| |sx mx ex]; try discriminate; try reflexivity.
  cbn [SFmul]. apply binary_round_aux_not_nan. lia.
Qed.

(** A sum with a finite term is NaN only if the other term is. *)
Lemma SFadd_not_nan (prec emax : Z) (x y : binary32) :
  b32_is_finite x = true -> b32_is_nan y = false ->
  b32_is_nan (SFadd prec emax x y) = false.
Proof.
  intros Hx Hy.
  destruct x as [sx|sx| |sx mx ex]; try discriminate;
    destruct y as [sy|sy| |sy my ey]; try discriminate; try reflexivity.
  - destruct sx, sy; reflexivity.
  - cbn [SFadd]. apply binary_normalize_not_nan.
Qed.

Lemma SFcompare_antisym (x y : binary32) :
  SFcompare y x = option_map CompOpp (SFcompare x y).
Proof.
  destruct x as [sx|sx| |sx mx ex], y as [sy|sy| |sy my ey];
    try reflexivity;
    try (destruct sx; reflexivity);
    try (destruct sy; reflexivity);
    try (destruct sx, sy; reflexivity).
  cbn [SFcompare option_map]. f_equal.
  destruct sx, sy; try reflexivity.
  - rewrite (Z.compare_antisym ey ex).
    destruct (ey ?= ex)%Z; cbn [CompOpp]; try reflexivity.
    rewrite CompOpp_involutive.
    exact (Pos.compare_cont_antisym my mx Eq).
  - rewrite (Z.compare_antisym ey ex).
    destruct (ey ?= ex)%Z; cbn [CompOpp]; try reflexivity.
    symmetry. exact (Pos.compare_cont_antisym mx my Eq).
Qed.

Lemma SFcompare_not_nan (x y : binary32) :
  b32_is_nan x = false -> b32_is_nan y = false ->
  exists c, SFcompare x y = Some c.
Proof.
  intros Hx Hy.
  destruct x as [sx|sx| |sx mx ex]; try discriminate;
    destruct y as [sy|sy| |sy my ey]; try discriminate; cbn; eauto.
Qed.

(** Not [a < b], neither being NaN, is [b <= a]. *)
Lemma SFltb_false_leb (a b : binary32) :
  b32_is_nan a = false -> b32_is_nan b = false ->
  SFltb a b = false -> SFleb b a = true.
Proof.
  intros Ha Hb Hlt. unfold SFltb in Hlt. unfold SFleb.
  rewrite SFcompare_antisym.
  destruct (SFcompare_not_nan a b Ha Hb) as [c Hc]. rewrite Hc in *.
  destruct c; cbn; try reflexivity. discriminate.
Qed.

(** ** The subdivided cube *)

Section CubeFacts.
Context {F : Type} `{Scalar F}.

Lemma addFace_emits (vertices : list F) (normal : vec3 F) (res : Z) :
  CurvedWorld.addFace vertices normal res =
  vertices ++ flatten (cube_face normal res).
Proof.
  unfold CurvedWorld.addFace, cube_face.
  rewrite flatten_flat_map.
  apply for_upto_append. intros i acc.
  rewrite flatten_flat_map.
  apply for_upto_append. intros j acc'.
  unfold cube_cell, flatten. simpl.
  now rewrite <- app_assoc.
Qed.

Lemma fold_addFace_emits (res : Z) (fs : list (vec3 F)) (vertices : list F) :
  fold_left (fun vertices f => CurvedWorld.addFace vertices f res) fs vertices =
  vertices ++ flatten (flat_map (fun f => cube_face f res) fs).
Proof.
  revert vertices. induction fs as [|f fs IH]; intros vertices; simpl.
  - now rewrite app_nil_r.
  - rewrite IH, addFace_emits, flatten_app, app_assoc. reflexivity.
Qed.

(** The buffer of the cube holds the cells of its six faces, face after
    face. *)
Lemma generateSubdividedCube_emits (res : Z) :
  CurvedWorld.generateSubdividedCube res =
  flatten (flat_map (fun f => cube_face f res) CurvedWorld.faces).
Proof. unfold CurvedWorld.generateSubdividedCube. apply fold_addFace_emits. Qed.

Lemma cube_face_length (normal : vec3 F) (res : Z) :
  length (cube_face normal res) = (6 * Z.to_nat res * Z.to_nat res)%nat.
Proof.
  unfold cube_face.
  rewrite (flat_map_length_const _ (6 * Z.to_nat res)), range_length; [lia|].
  intros i. rewrite (flat_map_length_const _ 6), range_length; [lia|].
  reflexivity.
Qed.

Lemma cube_vertices_length (res : Z) :
  length (flat_map (fun f => cube_face f res) (CurvedWorld.faces (F:=F))) =
  (6 * (6 * Z.to_nat res * Z.to_nat res))%nat.
Proof.
  rewrite (flat_map_length_const _ (6 * Z.to_nat res * Z.to_nat res)).
  - simpl. lia.
  - intros f. apply cube_face_length.
Qed.

(** Number of positions and of floats, for any scalar arithmetic. *)
Lemma cube_counts (res : Z) :
  (0 <= res)%Z ->
  Z.of_nat (length (vertices_of (CurvedWorld.generateSubdividedCube (F:=F) res)))
    = (6 * (res * res) * 6)%Z /\
  Z.of_nat (length (CurvedWorld.generateSubdividedCube (F:=F) res))
    = (6 * (res * res) * 18)%Z.
Proof.
  intros Hres. rewrite generateSubdividedCube_emits, vertices_of_flatten.
  rewrite flatten_length, cube_vertices_length. lia.
Qed.

(** A position of the cube belongs to a cell of one of the six faces. *)
Lemma In_cube (res : Z) (p : vec3 F) :
  In p (vertices_of (CurvedWorld.generateSubdividedCube res)) <->
  exists normal i j,
    In normal CurvedWorld.faces /\ (0 <= i < res)%Z /\ (0 <= j < res)%Z /\
    In p (cube_cell normal res i j).
Proof.
  rewrite generateSubdividedCube_emits, vertices_of_flatten, in_flat_map.
  unfold cube_face. split.
  - intros (normal & Hn & Hp).
    apply in_flat_map in Hp as (i & Hi & Hp).
    apply in_flat_map in Hp as (j & Hj & Hp).
    apply In_range in Hi, Hj. eauto 10.
  - intros (normal & i & j & Hn & Hi & Hj & Hp).
    exists normal. split; [assumption|].
    apply in_flat_map. exists i. split; [now apply In_range|].
    apply in_flat_map. exists j. split; [now apply In_range|assumption].
Qed.
End CubeFacts.

(** In real arithmetic, the parameter of a grid line lies in [-1/2, 1/2]. *)
Lemma grid_line_bounds (res u : Z) :
  (1 <= res)%Z -> (0 <= u <= res)%Z ->
  (- (1 / 2) <= IZR u * (1 / IZR res) - 1 / 2 <= 1 / 2)%R.
Proof.
  intros Hres Hu.
  assert (Hr : (0 < IZR res)%R) by (apply IZR_lt; lia).
  assert (Hu0 : (0 <= IZR u)%R) by (apply IZR_le; lia).
  assert (Hur : (IZR u <= IZR res)%R) by (apply IZR_le; lia).
  assert (Hinv : (0 < 1 / IZR res)%R) by (apply Rdiv_lt_0_compat; lra).
  assert (Hone : (IZR res * (1 / IZR res) = 1)%R) by (field; lra).
  split; nra.
Qed.

Lemma getPoint_in_unit_cube (normal : vec3 R) (res u v : Z) :
  In normal CurvedWorld.faces ->
  (1 <= res)%Z -> (0 <= u <= res)%Z -> (0 <= v <= res)%Z ->
  in_unit_cube
    (CurvedWorld.getPoint normal
       (mkvec3 (vy normal) (vz normal) (vx normal))
       (cross normal (mkvec3 (vy normal) (vz normal) (vx normal)))
       (of_int 1 / of_int res)%fl u v).
Proof.
  intros Hn Hres Hu Hv.
  pose proof (grid_line_bounds res u Hres Hu) as Bu.
  pose proof (grid_line_bounds res v Hres Hv) as Bv.
  unfold in_unit_cube, CurvedWorld.getPoint, lit.
  simpl in Hn.
  destruct Hn as [<-|[<-|[<-|[<-|[<-|[<-|[]]]]]]]; cbn; lra.
Qed.

(** On the machine: at the default resolution of [Cube], 10, the only one
    [main] uses, every float of the buffer computed in binary32 lies in
    [[-0.5, 0.5]], with no rounding excess at all. *)
Lemma cube_default_binary32_bounds :
  forallb (fun x : binary32 => b32_leb (- lit 1 2)%fl x && b32_leb x (lit 1 2))
          (CurvedWorld.generateSubdividedCube CurvedScene.Cube_default_res) = true.
Proof. vm_compute. reflexivity. Qed.

(** C1: for every resolution [res >= 1] the subdivided cube has exactly
    [6 * res^2 * 6] vertices, that is [6 * res^2 * 18] floats, whatever the
    scalar arithmetic; and in the real arithmetic that the floats
    approximate, every vertex lies in the cube [[-0.5, 0.5]^3]. In binary32,
    at the default resolution 10, every coordinate lies in [[-0.5, 0.5]]. *)
Theorem cube_vertex_count_and_bounds :
  (forall res : Z,
      (1 <= res)%Z ->
      (forall (F : Type) (SF : Scalar F),
          Z.of_nat (length (vertices_of (CurvedWorld.generateSubdividedCube (F:=F) res)))
            = (6 * (res * res) * 6)%Z /\
          Z.of_nat (length (CurvedWorld.generateSubdividedCube (F:=F) res))
            = (6 * (res * res) * 18)%Z) /\
      (forall p : vec3 R,
          In p (vertices_of (CurvedWorld.generateSubdividedCube res)) ->
          in_unit_cube p)) /\
  forallb (fun x : binary32 => b32_leb (- lit 1 2)%fl x && b32_leb x (lit 1 2))
          (CurvedWorld.generateSubdividedCube CurvedScene.Cube_default_res) = true.
Proof.
  split; [|exact cube_default_binary32_bounds].
  intros res Hres. split.
  - intros F SF. apply cube_counts. lia.
  - intros p Hp.
    apply In_cube in Hp as (normal & i & j & Hn & Hi & Hj & Hp).
    unfold cube_cell in Hp. simpl in Hp.
    destruct Hp as [<-|[<-|[<-|[<-|[<-|[<-|[]]]]]]];
      apply getPoint_in_unit_cube; auto; lia.
Qed.

(** The cube at resolution 10: 3600 vertices, 10800 floats. *)
Lemma cube_vertex_count_and_bounds_witness :
  (forall (F : Type) (SF : Scalar F),
      Z.of_nat (length (vertices_of (CurvedWorld.generateSubdividedCube (F:=F) 10)))
        = (6 * (10 * 10) * 6)%Z /\
      Z.of_nat (length (CurvedWorld.generateSubdividedCube (F:=F) 10))
        = (6 * (10 * 10) * 18)%Z) /\
  (forall p : vec3 R,
      In p (vertices_of (CurvedWorld.generateSubdividedCube 10)) ->
      in_unit_cube p).
Proof. apply (proj1 cube_vertex_count_and_bounds 10%Z). lia. Defined.

(** ** The ground grid of the curved world *)

Section GroundFacts.
Context {F : Type} `{Scalar F}.

Lemma generateVertices_at_emits (resolution : Z) (size : F) :
  CurvedWorld.generateVertices_at resolution size =
  flatten (ground_grid resolution size).
Proof.
  unfold CurvedWorld.generateVertices_at, ground_grid.
  rewrite flatten_flat_map.
  change (flat_map (fun i => flatten (flat_map (fun j => ground_cell resolution size i j)
                                               (range resolution)))
                   (range resolution))
    with ([] ++ flat_map (fun i => flatten (flat_map
                              (fun j => ground_cell resolution size i j)
                              (range resolution)))
                         (range resolution)).
  apply for_upto_append. intros i acc.
  rewrite flatten_flat_map.
  apply for_upto_append. intros j acc'.
  unfold ground_cell, flatten. simpl.
  now rewrite <- !app_assoc.
Qed.

Lemma ground_grid_length (resolution : Z) (size : F) :
  length (ground_grid resolution size) =
  (6 * Z.to_nat resolution * Z.to_nat resolution)%nat.
Proof.
  unfold ground_grid.
  rewrite (flat_map_length_const _ (6 * Z.to_nat resolution)), range_length; [lia|].
  intros i. rewrite (flat_map_length_const _ 6), range_length; [lia|].
  reflexivity.
Qed.

(** Number of floats, for any scalar arithmetic and any half-extent. *)
Lemma ground_float_count (resolution : Z) (size : F) :
  (0 <= resolution)%Z ->
  Z.of_nat (length (CurvedWorld.generateVertices_at resolution size)) =
  (resolution * resolution * 6 * 3)%Z.
Proof.
  intros Hres.
  rewrite generateVertices_at_emits, flatten_length, ground_grid_length. lia.
Qed.

(** A position of the ground belongs to one of its cells. *)
Lemma In_ground (resolution : Z) (size : F) (p : vec3 F) :
  In p (vertices_of (CurvedWorld.generateVertices_at resolution size)) <->
  exists i j,
    (0 <= i < resolution)%Z /\ (0 <= j < resolution)%Z /\
    In p (ground_cell resolution size i j).
Proof.
  rewrite generateVertices_at_emits, vertices_of_flatten.
  unfold ground_grid. rewrite in_flat_map. split.
  - intros (i & Hi & Hp). apply in_flat_map in Hp as (j & Hj & Hp).
    apply In_range in Hi, Hj. eauto.
  - intros (i & j & Hi & Hj & Hp).
    exists i. split; [now apply In_range|].
    apply in_flat_map. exists j. split; [now apply In_range|assumption].
Qed.

(** Every Y coordinate is the literal [-1.0f], for any arithmetic. *)
Lemma ground_height (resolution : Z) (size : F) (p : vec3 F) :
  In p (vertices_of (CurvedWorld.generateVertices_at resolution size)) ->
  vy p = (- of_int 1)%fl.
Proof.
  intros Hp. apply In_ground in Hp as (i & j & _ & _ & Hp).
  unfold ground_cell in Hp. simpl in Hp.
  destruct Hp as [<-|[<-|[<-|[<-|[<-|[<-|[]]]]]]]; reflexivity.
Qed.
End GroundFacts.

(** In real arithmetic a grid line of the ground and the next one lie
    between [-size] and [size]. *)
Lemma ground_line_bounds (resolution i : Z) (size : R) :
  (1 <= resolution)%Z -> (0 <= i < resolution)%Z -> (0 <= size)%R ->
  let step := (size * 2 / IZR resolution)%R in
  let x := (- size + IZR i * step)%R in
  (- size <= x <= size)%R /\ (- size <= x + step <= size)%R.
Proof.
  intros Hres Hi Hsize step x.
  assert (Hr : (0 < IZR resolution)%R) by (apply IZR_lt; lia).
  assert (Hi0 : (0 <= IZR i)%R) by (apply IZR_le; lia).
  assert (Hi1 : (IZR i + 1 <= IZR resolution)%R).
  { rewrite <- plus_IZR. apply IZR_le. lia. }
  assert (Hstep0 : (0 <= step)%R).
  { unfold step. apply Rmult_le_pos; [lra|]. left. now apply Rinv_0_lt_compat. }
  assert (Hfull : (IZR resolution * step = 2 * size)%R).
  { unfold step. field. lra. }
  subst x. repeat split; nra.
Qed.

(** Whatever the sign of [size], the grid lines stay within [|size|] of the
    origin. *)
Lemma ground_line_bounds_abs (resolution i : Z) (size : R) :
  (1 <= resolution)%Z -> (0 <= i < resolution)%Z ->
  let step := (size * 2 / IZR resolution)%R in
  let x := (- size + IZR i * step)%R in
  (Rabs x <= Rabs size)%R /\ (Rabs (x + step) <= Rabs size)%R.
Proof.
  intros Hres Hi step x.
  destruct (Rle_dec 0 size) as [Hpos|Hneg].
  - destruct (ground_line_bounds resolution i size Hres Hi Hpos) as [Hx Hx'].
    fold step in Hx, Hx'. fold x in Hx, Hx'.
    rewrite (Rabs_right size) by lra.
    split; apply Rabs_le; lra.
  - assert (Hpos : (0 <= - size)%R) by lra.
    destruct (ground_line_bounds resolution i (- size) Hres Hi Hpos) as [Hx Hx'].
    cbv zeta in Hx, Hx'.
    replace (- - size + IZR i * (- size * 2 / IZR resolution))%R with (- x)%R
      in Hx, Hx' by (unfold x, step; field; apply not_0_IZR; lia).
    replace (- x + - size * 2 / IZR resolution)%R with (- (x + step))%R
      in Hx' by (unfold step; field; apply not_0_IZR; lia).
    rewrite (Rabs_left size) by lra.
    split; apply Rabs_le; lra.
Qed.

(** The grid lines of the ground of half-extent 20, computed in binary32:
    each line and the next one lie between -20 and 20. *)
Lemma ground20_binary32_lines :
  forallb
    (fun i : Z =>
       let size : binary32 := of_int 20 in
       let step := (size * of_int 2 / of_int CurvedWorld.resolution)%fl in
       let x := (- size + of_int i * step)%fl in
       b32_leb (- size)%fl x && b32_leb x size &&
       b32_leb (- size)%fl (x + step)%fl && b32_leb (x + step)%fl size)
    (range CurvedWorld.resolution) = true.
Proof. vm_compute. reflexivity. Qed.

Lemma ground20_binary32_line (i : Z) :
  (0 <= i < CurvedWorld.resolution)%Z ->
  let size : binary32 := of_int 20 in
  let step := (size * of_int 2 / of_int CurvedWorld.resolution)%fl in
  let x := (- size + of_int i * step)%fl in
  b32_within20 x /\ b32_within20 (x + step)%fl.
Proof.
  intros Hi. apply In_range in Hi.
  pose proof (proj1 (forallb_forall _ _) ground20_binary32_lines i Hi) as Hline.
  cbv beta zeta in Hline |- *.
  apply andb_prop in Hline as [Hline H4].
  apply andb_prop in Hline as [Hline H3].
  apply andb_prop in Hline as [H1 H2].
  unfold b32_within20. auto.
Qed.

Lemma ground_real_extent (size : R) (p : vec3 R) :
  (0 <= size)%R ->
  In p (vertices_of (CurvedWorld.generateVertices size)) ->
  vy p = (-1)%R /\ (- size <= vx p <= size)%R /\ (- size <= vz p <= size)%R.
Proof.
  intros Hsize Hp. unfold CurvedWorld.generateVertices in Hp. split.
  - rewrite (ground_height CurvedWorld.resolution size p Hp). cbn. lra.
  - apply (proj1 (In_ground CurvedWorld.resolution _ _)) in Hp
      as (i & j & Hi & Hj & Hp).
    assert (Hres : (1 <= CurvedWorld.resolution)%Z)
      by (unfold CurvedWorld.resolution; lia).
    pose proof (ground_line_bounds _ i size Hres Hi Hsize) as Bx.
    pose proof (ground_line_bounds _ j size Hres Hj Hsize) as Bz.
    cbv zeta in Bx, Bz.
    unfold ground_cell in Hp. cbv [In] in Hp.
    destruct Hp as [<-|[<-|[<-|[<-|[<-|[<-|[]]]]]]]; cbn; lra.
Qed.

Lemma ground_real_extent_abs (size : R) (p : vec3 R) :
  In p (vertices_of (CurvedWorld.generateVertices size)) ->
  (Rabs (vx p) <= Rabs size)%R /\ (Rabs (vz p) <= Rabs size)%R.
Proof.
  intros Hp. unfold CurvedWorld.generateVertices in Hp.
  apply (proj1 (In_ground CurvedWorld.resolution _ _)) in Hp
    as (i & j & Hi & Hj & Hp).
  assert (Hres : (1 <= CurvedWorld.resolution)%Z)
    by (unfold CurvedWorld.resolution; lia).
  destruct (ground_line_bounds_abs _ i size Hres Hi) as [Bx Bx'].
  destruct (ground_line_bounds_abs _ j size Hres Hj) as [Bz Bz'].
  cbv zeta in Bx, Bx', Bz, Bz'.
  unfold ground_cell in Hp. cbv [In] in Hp.
  destruct Hp as [<-|[<-|[<-|[<-|[<-|[<-|[]]]]]]]; split; assumption.
Qed.

Lemma ground_float_count_500 {F : Type} `{Scalar F} (size : F) :
  Z.of_nat (length (CurvedWorld.generateVertices size)) = 4500000%Z.
Proof.
  unfold CurvedWorld.generateVertices.
  rewrite ground_float_count; unfold CurvedWorld.resolution; lia.
Qed.

Lemma ground20_real_min :
  exists p : vec3 R,
    In p (vertices_of (CurvedWorld.generateVertices 20%R)) /\ vx p = (-20)%R.
Proof.
  unfold CurvedWorld.generateVertices. eexists. split.
  - refine (proj2 (In_ground CurvedWorld.resolution _ _) _). exists 0%Z, 0%Z.
    split; [unfold CurvedWorld.resolution; lia|].
    split; [unfold CurvedWorld.resolution; lia|].
    unfold ground_cell. left. reflexivity.
  - unfold CurvedWorld.resolution. cbn. lra.
Qed.

Lemma ground20_real_max :
  exists p : vec3 R,
    In p (vertices_of (CurvedWorld.generateVertices 20%R)) /\ vx p = 20%R.
Proof.
  unfold CurvedWorld.generateVertices. eexists. split.
  - refine (proj2 (In_ground CurvedWorld.resolution _ _) _). exists 499%Z, 0%Z.
    split; [unfold CurvedWorld.resolution; lia|].
    split; [unfold CurvedWorld.resolution; lia|].
    unfold ground_cell. right. left. reflexivity.
  - unfold CurvedWorld.resolution. cbn. lra.
Qed.

Lemma ground20_binary32_extent (p : vec3 binary32) :
  In p (vertices_of (CurvedWorld.generateVertices (of_int 20))) ->
  vy p = (- of_int 1)%fl /\ b32_within20 (vx p) /\ b32_within20 (vz p).
Proof.
  intros Hp. unfold CurvedWorld.generateVertices in Hp. split.
  - exact (ground_height CurvedWorld.resolution _ p Hp).
  - apply (proj1 (In_ground CurvedWorld.resolution _ _)) in Hp
      as (i & j & Hi & Hj & Hp).
    destruct (ground20_binary32_line i Hi) as [Hx Hx'].
    destruct (ground20_binary32_line j Hj) as [Hz Hz'].
    cbv zeta in Hx, Hx', Hz, Hz'.
    unfold ground_cell in Hp. cbv [In] in Hp.
    destruct Hp as [<-|[<-|[<-|[<-|[<-|[<-|[]]]]]]]; cbv [vx vz]; auto.
Qed.

Lemma ground20_binary32_min :
  exists p : vec3 binary32,
    In p (vertices_of (CurvedWorld.generateVertices (of_int 20))) /\
    vx p = (- of_int 20)%fl.
Proof.
  unfold CurvedWorld.generateVertices. eexists. split.
  - refine (proj2 (In_ground CurvedWorld.resolution _ _) _). exists 0%Z, 0%Z.
    split; [unfold CurvedWorld.resolution; lia|].
    split; [unfold CurvedWorld.resolution; lia|].
    unfold ground_cell. left. reflexivity.
  - vm_compute. reflexivity.
Qed.

Lemma ground20_binary32_max :
  exists p : vec3 binary32,
    In p (vertices_of (CurvedWorld.generateVertices (of_int 20))) /\
    vx p = S754_finite false 10485759 (-19).
Proof.
  unfold CurvedWorld.generateVertices. eexists. split.
  - refine (proj2 (In_ground CurvedWorld.resolution _ _) _). exists 499%Z, 0%Z.
    split; [unfold CurvedWorld.resolution; lia|].
    split; [unfold CurvedWorld.resolution; lia|].
    unfold ground_cell. right. left. reflexivity.
  - vm_compute. reflexivity.
Qed.

(** The grid lines of the ground of half-extent 100, the default of the
    constructor, computed in binary32: each line and the next one lie
    between -100 and 100 + 2^-17, hence within one grid step of the
    interval. *)
Lemma ground100_binary32_lines :
  forallb
    (fun i : Z =>
       let size : binary32 := of_int 100 in
       let step := (size * of_int 2 / of_int CurvedWorld.resolution)%fl in
       let x := (- size + of_int i * step)%fl in
       b32_leb (- size)%fl x && b32_leb x (S754_finite false 13107201 (-17)) &&
       b32_leb (- size)%fl (x + step)%fl &&
       b32_leb (x + step)%fl (S754_finite false 13107201 (-17)))
    (range CurvedWorld.resolution) = true.
Proof. vm_compute. reflexivity. Qed.

Lemma ground100_binary32_extent (p : vec3 binary32) :
  In p (vertices_of (CurvedWorld.generateVertices (of_int 100))) ->
  vy p = (- of_int 1)%fl /\
  (b32_leb (- of_int 100)%fl (vx p) = true /\
   b32_leb (vx p) (S754_finite false 13107201 (-17)) = true) /\
  (b32_leb (- of_int 100)%fl (vz p) = true /\
   b32_leb (vz p) (S754_finite false 13107201 (-17)) = true).
Proof.
  intros Hp. unfold CurvedWorld.generateVertices in Hp. split.
  - exact (ground_height CurvedWorld.resolution _ p Hp).
  - apply (proj1 (In_ground CurvedWorld.resolution _ _)) in Hp
      as (i & j & Hi & Hj & Hp).
    apply In_range in Hi, Hj.
    pose proof (proj1 (forallb_forall _ _) ground100_binary32_lines i Hi) as Hx.
    pose proof (proj1 (forallb_forall _ _) ground100_binary32_lines j Hj) as Hz.
    cbv beta zeta in Hx, Hz.
    apply andb_prop in Hx as [Hx Hx4]. apply andb_prop in Hx as [Hx Hx3].
    apply andb_prop in Hx as [Hx1 Hx2].
    apply andb_prop in Hz as [Hz Hz4]. apply andb_prop in Hz as [Hz Hz3].
    apply andb_prop in Hz as [Hz1 Hz2].
    unfold ground_cell in Hp. cbv [In] in Hp.
    destruct Hp as [<-|[<-|[<-|[<-|[<-|[<-|[]]]]]]]; cbv [vx vz]; auto.
Qed.

(** The largest X of the ground of half-extent 100 in binary32, attained in
    the last column: 100 + 2^-17, above 100 and within one grid step of it. *)
Lemma ground100_binary32_max :
  exists p : vec3 binary32,
    In p (vertices_of (CurvedWorld.generateVertices (of_int 100))) /\
    vx p = S754_finite false 13107201 (-17) /\
    b32_leb (vx p) (of_int 100) = false /\
    b32_leb (vx p) (of_int 100 + of_int 100 * of_int 2 / of_int 500)%fl = true.
Proof.
  unfold CurvedWorld.generateVertices. eexists. split.
  - refine (proj2 (In_ground CurvedWorld.resolution _ _) _). exists 499%Z, 0%Z.
    split; [unfold CurvedWorld.resolution; lia|].
    split; [unfold CurvedWorld.resolution; lia|].
    unfold ground_cell. right. left. reflexivity.
  - vm_compute. repeat split.
Qed.




(** ** The camera *)

Section CameraFacts.
Context {F : Type} `{Scalar F} `{Trig F}.

Lemma updateCameraVectors_yaw (c : Camera F) : yaw (updateCameraVectors c) = yaw c.
Proof. reflexivity. Qed.

Lemma updateCameraVectors_pitch (c : Camera F) :
  pitch (updateCameraVectors c) = pitch c.
Proof. reflexivity. Qed.

(** After [updateCameraVectors] the forward vector is the one derived from
    yaw and pitch. *)
Lemma updateCameraVectors_front (c : Camera F) :
  cameraFront (updateCameraVectors c) = normalize (front_of (yaw c) (pitch c)).
Proof. reflexivity. Qed.

(** Every mouse event ends with [updateCameraVectors]. *)
Lemma ProcessMouseMovement_front (c : Camera F) (xoffset yoffset : F) (b : bool) :
  let c' := ProcessMouseMovement c xoffset yoffset b in
  cameraFront c' = normalize (front_of (yaw c') (pitch c')).
Proof. reflexivity. Qed.

Lemma ProcessMouseMovement_yaw (c : Camera F) (xoffset yoffset : F) (b : bool) :
  yaw (ProcessMouseMovement c xoffset yoffset b) = (yaw c + xoffset * lit 1 10)%fl.
Proof. reflexivity. Qed.

(** Without [constrainPitch] the pitch is the plain sum. *)
Lemma ProcessMouseMovement_pitch_free (c : Camera F) (xoffset yoffset : F) :
  pitch (ProcessMouseMovement c xoffset yoffset false) =
  (pitch c + yoffset * lit 1 10)%fl.
Proof. reflexivity. Qed.

(** The keyboard moves the camera and leaves its orientation alone. *)
Lemma ProcessKeyboard_orientation (c : Camera F) (keys : Keys) (deltaTime : F) :
  let c' := ProcessKeyboard c keys deltaTime in
  yaw c' = yaw c /\ pitch c' = pitch c /\ cameraFront c' = cameraFront c.
Proof.
  destruct keys as [[] [] [] [] [] []]; repeat split.
Qed.

End CameraFacts.

(** One constrained mouse event clamps the pitch, from any state. *)
Lemma ProcessMouseMovement_clamps (c : Camera R) (xoffset yoffset : R) :
  pitch_in_bounds (ProcessMouseMovement c xoffset yoffset true).
Proof.
  unfold pitch_in_bounds, ProcessMouseMovement. cbn.
  destruct (Rlt_dec 89 (pitch c + yoffset * (1 / 10))) as [Hhi|Hhi];
    match goal with
    | |- context [Rlt_dec ?a ?b] => destruct (Rlt_dec a b)
    end; cbn; lra.
Qed.

Lemma mouse_moves_clamped (c : Camera R) (offsets : list (R * R)) :
  pitch_in_bounds c -> pitch_in_bounds (mouse_moves true c offsets).
Proof.
  revert c. induction offsets as [|o offsets IH]; intros c Hc.
  - exact Hc.
  - apply IH. apply ProcessMouseMovement_clamps.
Qed.

(** The two clamp tests of [ProcessMouseMovement] on binary32. *)
Lemma b32_clamp (p : binary32) :
  b32_is_nan p = false ->
  let r := if (of_int 89 <? p)%fl then of_int 89 else p in
  let r' := if (r <? - of_int 89)%fl then (- of_int 89)%fl else r in
  b32_leb (- of_int 89)%fl r' = true /\ b32_leb r' (of_int 89) = true.
Proof.
  intros Hp. cbv zeta.
  destruct (of_int 89 <? p)%fl eqn:Hhi.
  - vm_compute. auto.
  - assert (Hle : b32_leb p (of_int 89) = true)
      by (apply SFltb_false_leb; [reflexivity | exact Hp | exact Hhi]).
    destruct (p <? - of_int 89)%fl eqn:Hlo.
    + vm_compute. auto.
    + split; [|exact Hle].
      apply SFltb_false_leb; [exact Hp | reflexivity | exact Hlo].
Qed.

Lemma b32_bounds_finite (p : binary32) :
  b32_leb (- of_int 89)%fl p = true -> b32_leb p (of_int 89) = true ->
  b32_is_finite p = true.
Proof.
  destruct p as [s|[]| |s m e]; intros Hlo Hhi; try reflexivity;
    vm_compute in Hlo, Hhi; discriminate.
Qed.

Lemma ProcessMouseMovement_clamps_binary32
      (T : Trig binary32) (c : Camera binary32) (xoffset yoffset : binary32) :
  b32_is_finite (pitch c) = true -> b32_is_nan yoffset = false ->
  b32_pitch_in_bounds (ProcessMouseMovement c xoffset yoffset true).
Proof.
  intros Hc Hy. apply b32_clamp.
  apply SFadd_not_nan; [exact Hc|].
  apply SFmul_not_nan; [exact Hy|].
  vm_compute. eauto.
Qed.

Lemma mouse_moves_clamped_binary32
      (T : Trig binary32) (offsets : list (binary32 * binary32)) :
  Forall (fun o => b32_is_nan (snd o) = false) offsets ->
  forall c, b32_pitch_in_bounds c ->
  b32_pitch_in_bounds (mouse_moves true c offsets).
Proof.
  induction 1 as [|o offsets Ho _ IH]; intros c Hc.
  - exact Hc.
  - apply IH. apply ProcessMouseMovement_clamps_binary32; [|exact Ho].
    destruct Hc as [Hlo Hhi]. now apply b32_bounds_finite.
Qed.

(** The edge of the statement: an offset that is no number at all passes
    both clamp tests, as every comparison with NaN is false, and is stored.
    The offsets [Engine::mouse_callback] passes are differences of cursor
    positions, which are numbers. *)
Lemma ProcessMouseMovement_nan_binary32
      (T : Trig binary32) (c : Camera binary32) (xoffset : binary32) :
  pitch (ProcessMouseMovement c xoffset S754_nan true) = S754_nan.
Proof.
  unfold ProcessMouseMovement. rewrite updateCameraVectors_pitch.
  cbn [pitch yaw]. destruct (pitch c) as [s|s| |s m e]; reflexivity.
Qed.

(** C3: with the default [constrainPitch], the pitch lies in [[-89, 89]]
    after any finite sequence of mouse events, whatever the offsets. In real
    arithmetic: from the constructed camera after any sequence, and from any
    camera state after at least one event. In binary32, from the constructed
    camera after any sequence of events whose vertical offsets are floats or
    infinities (anything but NaN), whatever [cos] and [sin] return. *)
Theorem pitch_clamped_after_mouse_moves :
  (forall offsets : list (R * R),
      pitch_in_bounds (mouse_moves true Camera_ctor offsets)) /\
  (forall (c : Camera R) (o : R * R) (offsets : list (R * R)),
      pitch_in_bounds (mouse_moves true c (o :: offsets))) /\
  (forall (T : Trig binary32) (offsets : list (binary32 * binary32)),
      Forall (fun o => b32_is_nan (snd o) = false) offsets ->
      b32_pitch_in_bounds (mouse_moves true Camera_ctor offsets)).
Proof.
  split; [|split].
  - intros offsets. apply mouse_moves_clamped.
    unfold pitch_in_bounds. cbn. lra.
  - intros c o offsets. apply (mouse_moves_clamped _ offsets).
    apply ProcessMouseMovement_clamps.
  - intros T offsets Hoffsets.
    apply mouse_moves_clamped_binary32; [exact Hoffsets|].
    split; vm_compute; reflexivity.
Qed.

(** The largest offsets there are: plus and minus infinity, and the largest
    float. *)
Lemma pitch_clamped_after_mouse_moves_witness :
  pitch_in_bounds (mouse_moves true Camera_ctor [(0%R, 1000000000%R)]) /\
  (forall T : Trig binary32,
      b32_pitch_in_bounds
        (mouse_moves true Camera_ctor
           [ (of_int 0, S754_infinity false);
             (of_int 0, S754_infinity true);
             (of_int 0, S754_finite false 16777215 104) ])).
Proof.
  split.
  - apply (proj1 pitch_clamped_after_mouse_moves).
  - intros T. apply (proj2 (proj2 pitch_clamped_after_mouse_moves)).
    repeat constructor.
Defined.

(** In real arithmetic the vector derived from yaw and pitch has norm 1. *)
Lemma front_of_dot (y p : R) : dot (front_of y p) (front_of y p) = 1%R.
Proof.
  unfold dot, front_of. cbn.
  pose proof (sin2_cos2 (y * (PI / 180))) as Hy.
  pose proof (sin2_cos2 (p * (PI / 180))) as Hp.
  unfold Rsqr in Hy, Hp.
  set (cy := cos (y * (PI / 180))) in *. set (sy := sin (y * (PI / 180))) in *.
  set (cp := cos (p * (PI / 180))) in *. set (sp := sin (p * (PI / 180))) in *.
  replace (cy * cp * (cy * cp) + sp * sp + sy * cp * (sy * cp))%R
    with (cp * cp * (sy * sy + cy * cy) + sp * sp)%R by ring.
  rewrite Hy. lra.
Qed.

Lemma normalize_unit (v : vec3 R) : dot v v = 1%R -> normalize v = v.
Proof.
  intros Hv. unfold normalize. rewrite Hv. destruct v as [x y z].
  unfold vscale. cbn. rewrite sqrt_1. f_equal; field.
Qed.

Lemma normalize_front_of (y p : R) : normalize (front_of y p) = front_of y p.
Proof. apply normalize_unit, front_of_dot. Qed.

Lemma vlength_front_of (y p : R) : vlength (normalize (front_of y p)) = 1%R.
Proof.
  rewrite normalize_front_of. unfold vlength. rewrite front_of_dot.
  cbn. apply sqrt_1.
Qed.

Lemma SFmul_nan_l (y : binary32) : SFmul b32_prec b32_emax S754_nan y = S754_nan.
Proof. destruct y; reflexivity. Qed.

Lemma SFadd_nan_l (y : binary32) : SFadd b32_prec b32_emax S754_nan y = S754_nan.
Proof. destruct y; reflexivity. Qed.

Lemma b32_is_nan_eq (x : binary32) : b32_is_nan x = true -> x = S754_nan.
Proof. destruct x; cbn; congruence. Qed.

(** In binary32 the yaw after a run of mouse events is the running sum of
    the scaled horizontal offsets, whatever [cos] and [sin] return. *)
Lemma mouse_moves_yaw_fold {F : Type} `{Scalar F} `{Trig F}
      (b : bool) (offsets : list (F * F)) :
  forall c : Camera F,
    yaw (mouse_moves b c offsets)
    = fold_left (fun y o => (y + fst o * lit 1 10)%fl) offsets (yaw c).
Proof.
  induction offsets as [|o offsets IH]; intros c; [reflexivity|].
  change (mouse_moves b c (o :: offsets))
    with (mouse_moves b (ProcessMouseMovement c (fst o) (snd o) b) offsets).
  rewrite IH, ProcessMouseMovement_yaw. reflexivity.
Qed.

(** After at least one mouse event the forward vector is the one derived
    from the yaw and the pitch. *)
Lemma mouse_moves_front {F : Type} `{Scalar F} `{Trig F}
      (b : bool) (offsets : list (F * F)) :
  forall (c : Camera F) (o : F * F),
    let c' := mouse_moves b c (o :: offsets) in
    cameraFront c' = normalize (front_of (yaw c') (pitch c')).
Proof.
  induction offsets as [|o' offsets IH]; intros c o.
  - apply (ProcessMouseMovement_front c (fst o) (snd o) b).
  - exact (IH (ProcessMouseMovement c (fst o) (snd o) b) o').
Qed.

(** With an infinite yaw, the forward vector derived from it is NaN. *)
Lemma front_of_infinite_yaw (T : Trig binary32) (s : bool) (p : binary32) :
  libm_at_infinity T ->
  let f := normalize (front_of (S754_infinity s) p) in
  b32_is_nan (vx f) = true /\ b32_is_nan (vz f) = true /\
  b32_is_nan (dot f f) = true /\ b32_is_nan (vlength f) = true.
Proof.
  intros [Hinf Hsqrt]. destruct (Hinf s) as (Hrad & Hcos & Hsin). cbv zeta.
  assert (Hx : vx (normalize (front_of (S754_infinity s) p)) = S754_nan).
  { unfold normalize, front_of, vscale. cbn [vx fmul b32_Scalar].
    rewrite Hrad, (b32_is_nan_eq _ Hcos), !SFmul_nan_l. reflexivity. }
  assert (Hz : vz (normalize (front_of (S754_infinity s) p)) = S754_nan).
  { unfold normalize, front_of, vscale. cbn [vz fmul b32_Scalar].
    rewrite Hrad, (b32_is_nan_eq _ Hsin), !SFmul_nan_l. reflexivity. }
  assert (Hd : dot (normalize (front_of (S754_infinity s) p))
                   (normalize (front_of (S754_infinity s) p)) = S754_nan).
  { unfold dot. rewrite Hx. cbn [fmul fadd b32_Scalar].
    rewrite SFmul_nan_l, !SFadd_nan_l. reflexivity. }
  rewrite Hx, Hz. unfold vlength. rewrite Hd.
  split; [reflexivity|]. split; [reflexivity|]. split; [reflexivity|exact Hsqrt].
Qed.



(** The forward vector the constructor stores, squared: 1.09. *)
Lemma Camera_ctor_front_dot :
  dot (cameraFront (Camera_ctor (F:=R))) (cameraFront Camera_ctor) = (109 / 100)%R.
Proof. unfold dot, lit. cbn. field. Qed.

(** C4, at the constructed camera: the forward vector stored by
    [Camera::Camera] is [(0, -0.3, -1)]; its length is the square root of
    1.09, not 1, and it is not the vector derived from the yaw -90 and the
    pitch 0 that the same constructor stores, whose Y component is 0. In
    binary32 its squared length is the float 9143583 x 2^-23, about 1.09. *)
Theorem Camera_ctor_front_not_derived :
  cameraFront (Camera_ctor (F:=R)) = mkvec3 0%R (- (3 / 10))%R (-1)%R /\
  vlength (cameraFront (Camera_ctor (F:=R))) <> 1%R /\
  cameraFront (Camera_ctor (F:=R)) <>
    normalize (front_of (yaw (Camera_ctor (F:=R))) (pitch (Camera_ctor (F:=R)))) /\
  dot (cameraFront (Camera_ctor (F:=binary32))) (cameraFront Camera_ctor)
    = S754_finite false 9143583 (-23).
Proof.
  split; [|split; [|split]]; [| | |vm_compute; reflexivity].
  - unfold Camera_ctor, lit. cbn. reflexivity.
  - unfold vlength. rewrite Camera_ctor_front_dot. cbn. intros Hlen.
    pose proof (sqrt_sqrt (109 / 100)) as Hsq.
    rewrite Hlen in Hsq. lra.
  - rewrite normalize_front_of. intros Heq.
    apply (f_equal vy) in Heq. revert Heq. unfold lit. cbn.
    rewrite Rmult_0_l, sin_0. lra.
Qed.

(** C6: from the constructed camera, [ProcessMouseMovement(100, 0)] brings
    the yaw from -90 to -80, an increase of exactly 100 x 0.1 = 10 degrees,
    leaves the pitch at 0, inside the clamp bounds, and stores as forward
    vector the one of the new yaw and pitch,
    [(cos(-80 deg) cos(0), sin(0), sin(-80 deg) cos(0))], that is
    [(cos(-80 deg), 0, sin(-80 deg))]: its X is positive, its Y is 0 and its
    Z is negative, and it differs from the vector stored before. In binary32
    too the new yaw is exactly the float -80 and the pitch the float 0,
    whatever [cos] and [sin] return. *)
Theorem mouse_move_100_0 :
  (let c := Camera_ctor (F:=R) in
   let c' := ProcessMouseMovement c 100%R 0%R true in
   yaw c = (-90)%R /\ pitch c = 0%R /\
   yaw c' = (-80)%R /\ (yaw c' - yaw c = 100 * (1 / 10))%R /\
   pitch c' = 0%R /\ pitch_in_bounds c' /\
   cameraFront c' =
     mkvec3 (cos (-80 * (PI / 180)) * cos (0 * (PI / 180)))%R
            (sin (0 * (PI / 180)))%R
            (sin (-80 * (PI / 180)) * cos (0 * (PI / 180)))%R /\
   cameraFront c' =
     mkvec3 (cos (-80 * (PI / 180)))%R 0%R (sin (-80 * (PI / 180)))%R /\
   (0 < vx (cameraFront c'))%R /\ (vz (cameraFront c') < 0)%R /\
   cameraFront c' <> cameraFront c) /\
  (forall T : Trig binary32,
      let c' := ProcessMouseMovement (Camera_ctor (F:=binary32))
                                     (of_int 100) (of_int 0) true in
      yaw c' = of_int (-80) /\ pitch c' = of_int 0).
Proof.
  split.
  - cbv zeta.
    assert (Hyaw : yaw (ProcessMouseMovement (Camera_ctor (F:=R)) 100%R 0%R true)
                   = (-80)%R).
    { rewrite ProcessMouseMovement_yaw. unfold lit. cbn. lra. }
    assert (Hpitch : pitch (ProcessMouseMovement (Camera_ctor (F:=R)) 100%R 0%R true)
                     = 0%R).
    { unfold ProcessMouseMovement, lit. cbn.
      destruct (Rlt_dec 89 (0 + 0 * (1 / 10))) as [Hhi|Hhi]; [lra|].
      match goal with
      | |- context [Rlt_dec ?a ?b] => destruct (Rlt_dec a b) as [Hlo|Hlo]
      end; cbn; lra. }
    split; [cbn; lra|].
    split; [reflexivity|].
    split; [exact Hyaw|].
    split; [rewrite Hyaw; cbn; lra|].
    split; [exact Hpitch|].
    split; [unfold pitch_in_bounds; rewrite Hpitch; lra|].
    rewrite ProcessMouseMovement_front. cbv zeta.
    rewrite Hyaw, Hpitch, normalize_front_of.
    split; [reflexivity|].
    assert (Hfront : front_of (-80)%R 0%R
                     = mkvec3 (cos (-80 * (PI / 180)))%R 0%R
                              (sin (-80 * (PI / 180)))%R).
    { unfold front_of. cbn [fcos fsin radians R_Trig fmul R_Scalar].
      rewrite Rmult_0_l, cos_0, sin_0, !Rmult_1_r. reflexivity. }
    split; [exact Hfront|].
    rewrite Hfront. cbn [vx vz].
    pose proof PI_RGT_0 as Hpi.
    split; [apply cos_gt_0; lra|].
    split; [apply sin_lt_0_var; lra|].
    rewrite <- Hfront. intros Heq.
    apply (f_equal vy) in Heq. revert Heq. unfold lit. cbn.
    rewrite Rmult_0_l, sin_0. lra.
  - intros T. cbv zeta. split.
    + rewrite ProcessMouseMovement_yaw. vm_compute. reflexivity.
    + unfold ProcessMouseMovement. rewrite updateCameraVectors_pitch.
      vm_compute. reflexivity.
Qed.

(** Without the clamp, [n] events with the offset 1000 add up to 100 n. *)
Lemma mouse_moves_free_accumulates (c : Camera R) (n : nat) :
  pitch (mouse_moves false c (repeat (0%R, 1000%R) n)) = (pitch c + 100 * INR n)%R.
Proof.
  revert c. induction n as [|n IH]; intros c.
  - cbn. lra.
  - change (repeat (0%R, 1000%R) (S n))
      with ((0%R, 1000%R) :: repeat (0%R, 1000%R) n).
    change (mouse_moves false c ((0%R, 1000%R) :: repeat (0%R, 1000%R) n))
      with (mouse_moves false (ProcessMouseMovement c 0%R 1000%R false)
                        (repeat (0%R, 1000%R) n)).
    rewrite IH, ProcessMouseMovement_pitch_free, S_INR. unfold lit. cbn. lra.
Qed.

(** C10: with [constrainPitch = false] no clamp is applied, the new pitch
    being the old one plus a tenth of the offset; one such event takes the
    constructed camera to the pitch 100, outside [[-89, 89]], and repeating
    it takes the pitch above any bound. In binary32 too one event with the
    offset 1000 stores the float 100, which is not below 89. *)
Theorem unconstrained_pitch_leaves_bounds :
  (forall (c : Camera R) (xoffset yoffset : R),
      pitch (ProcessMouseMovement c xoffset yoffset false) =
      (pitch c + yoffset * (1 / 10))%R) /\
  (exists offsets : list (R * R),
      ~ pitch_in_bounds (mouse_moves false Camera_ctor offsets)) /\
  (forall bound : R, exists offsets : list (R * R),
      (bound < pitch (mouse_moves false Camera_ctor offsets))%R) /\
  (forall T : Trig binary32,
      pitch (ProcessMouseMovement Camera_ctor (of_int 0) (of_int 1000) false)
        = of_int 100 /\
      b32_leb (of_int 100) (of_int 89) = false).
Proof.
  split; [|split; [|split]];
    [| | |intros T; rewrite ProcessMouseMovement_pitch_free;
          split; vm_compute; reflexivity].
  - intros c xoffset yoffset. rewrite ProcessMouseMovement_pitch_free.
    unfold lit. cbn. reflexivity.
  - exists (repeat (0%R, 1000%R) 1). unfold pitch_in_bounds.
    rewrite mouse_moves_free_accumulates. cbn. lra.
  - intros bound.
    destruct (archimed (Rabs bound)) as [Hup _].
    assert (Hpos : (0 <= up (Rabs bound))%Z).
    { apply le_IZR. pose proof (Rabs_pos bound). lra. }
    exists (repeat (0%R, 1000%R) (Z.to_nat (up (Rabs bound)))).
    rewrite mouse_moves_free_accumulates, INR_IZR_INZ, Z2Nat.id by assumption.
    change (pitch (Camera_ctor (F:=R))) with 0%R.
    pose proof (Rle_abs bound). pose proof (Rabs_pos bound). lra.
Qed.

(** ** The GPU mesh and the graphics API *)

Section ObjectFacts.
Context {F : Type}.

Lemma next_vertex_array_fresh (g : GL F) :
  next_vertex_array g ≠ 0 /\ next_vertex_array g ∉ vertex_arrays g.
Proof.
  pose proof (is_fresh ({[0]} ∪ vertex_arrays g)) as Hfresh.
  unfold next_vertex_array. set_solver.
Qed.

Lemma next_buffer_fresh (g : GL F) :
  next_buffer g ≠ 0 /\ next_buffer g ∉ buffers g.
Proof.
  pose proof (is_fresh ({[0]} ∪ buffers g)) as Hfresh.
  unfold next_buffer. set_solver.
Qed.

(** What the constructor returns and the state it leaves. *)
Lemma Object_ctor_run (vertices : list F) (size : Z) (g : GL F) :
  Object_ctor vertices size g =
  (mkObject (next_buffer g) (next_vertex_array g) (size ÷ 3),
   mkGL ({[next_vertex_array g]} ∪ vertex_arrays g)
        ({[next_buffer g]} ∪ buffers g)
        (shader_objects g) 0 0
        (<[next_buffer g := firstn (Z.to_nat size) vertices]> (buffer_store g))
        (calls g ++ ctor_calls vertices size (next_vertex_array g) (next_buffer g))
        (stale g)).
Proof.
  destruct (next_buffer_fresh g) as [Hnz _]. revert Hnz.
  destruct g as [vas bs sos vab abb store log stl].
  unfold Object_ctor, ctor_calls, next_vertex_array, next_buffer. gl_run.
  intros Hnz.
  case_decide; [contradiction|].
  rewrite <- !app_assoc. reflexivity.
Qed.

(** The state the destructor leaves. *)
Lemma Object_dtor_run (o : Object) (g : GL F) :
  exec (Object_dtor o) g =
  mkGL (vertex_arrays g ∖ {[VAO o]}) (buffers g ∖ {[VBO o]})
       (shader_objects g)
       (vertex_array_binding g) (array_buffer_binding g)
       (delete (VBO o) (buffer_store g))
       (calls g ++ dtor_calls o)
       ((if decide (VAO o ∈ vertex_arrays g) then stale g
         else stale g ++ [glDeleteVertexArrays (VAO o)])
        ++ (if decide (VBO o ∈ buffers g) then []
            else [glDeleteBuffers (VBO o)])).
Proof.
  destruct g as [vas bs sos vab abb store log stl].
  unfold Object_dtor, dtor_calls. gl_run.
  rewrite <- !app_assoc. f_equal.
  repeat case_decide; rewrite ?app_nil_r; reflexivity.
Qed.

Lemma Draw_run (o : Object) (g : GL F) :
  exec (Draw o) g =
  mkGL (vertex_arrays g) (buffers g) (shader_objects g)
       0 (array_buffer_binding g) (buffer_store g)
       (calls g ++ [glBindVertexArray (VAO o); glDrawArrays 0 (vertexCount o);
                    glBindVertexArray 0])
       (stale g).
Proof.
  destruct g as [vas bs sos vab abb store log stl].
  unfold Draw. gl_run. rewrite <- !app_assoc. reflexivity.
Qed.

Lemma count_calls_app (p : GLcall F -> bool) (l1 l2 : list (GLcall F)) :
  count_calls p (l1 ++ l2) = (count_calls p l1 + count_calls p l2)%nat.
Proof. unfold count_calls. now rewrite List.filter_app, length_app. Qed.
End ObjectFacts.

(** Releasing a name right after it was taken restores the names in use. *)
Lemma take_release (X : gset GLuint) (name : GLuint) :
  name ∉ X -> ({[name]} ∪ X) ∖ {[name]} = X.
Proof.
  intros Hfresh. apply set_eq. intros x.
  rewrite elem_of_difference, elem_of_union, elem_of_singleton. split.
  - intros [[Hx|Hx] Hne]; [contradiction|assumption].
  - intros Hx. split; [now right|]. intros ->. contradiction.
Qed.

Lemma taken_in_use (X : gset GLuint) (name : GLuint) : name ∈ {[name]} ∪ X.
Proof. apply elem_of_union_l. now apply elem_of_singleton. Qed.

Section ObjectLifetime.
Context {F : Type}.

Lemma Object_ctor_eval (vertices : list F) (size : Z) (g : GL F) :
  eval (Object_ctor vertices size) g =
  mkObject (next_buffer g) (next_vertex_array g) (size ÷ 3).
Proof. unfold eval. now rewrite Object_ctor_run. Qed.

Lemma Object_ctor_exec (vertices : list F) (size : Z) (g : GL F) :
  exec (Object_ctor vertices size) g =
  mkGL ({[next_vertex_array g]} ∪ vertex_arrays g)
       ({[next_buffer g]} ∪ buffers g)
       (shader_objects g) 0 0
       (<[next_buffer g := firstn (Z.to_nat size) vertices]> (buffer_store g))
       (calls g ++ ctor_calls vertices size (next_vertex_array g) (next_buffer g))
       (stale g).
Proof. unfold exec. now rewrite Object_ctor_run. Qed.

(** Destroying an object whose two names are in use releases both and
    notes nothing as stale. *)
Lemma Object_dtor_live (o : Object) (g : GL F) :
  VAO o ∈ vertex_arrays g -> VBO o ∈ buffers g ->
  stale (exec (Object_dtor o) g) = stale g /\
  vertex_arrays (exec (Object_dtor o) g) = vertex_arrays g ∖ {[VAO o]} /\
  buffers (exec (Object_dtor o) g) = buffers g ∖ {[VBO o]}.
Proof.
  intros Hvao Hvbo. rewrite Object_dtor_run. cbn.
  repeat case_decide; try contradiction.
  rewrite app_nil_r. auto.
Qed.
End ObjectLifetime.

(** C7: constructing an [Object] and then destroying it. The constructor
    issues exactly one vertex-array create and one buffer create, and no
    destroy; the destructor, which has no condition, issues exactly one
    vertex-array destroy and one buffer destroy, for the two names the
    constructor obtained, and no create. Afterwards the names in use are
    those in use before: no handle is leaked, and no destroy call named a
    handle that was not in use. *)
Theorem construct_destroy_paired
        (F : Type) (vertices : list F) (size : Z) (g : GL F) :
  let o := eval (Object_ctor vertices size) g in
  let g1 := exec (Object_ctor vertices size) g in
  let g2 := exec (Object_dtor o) g1 in
  calls g1 = calls g ++ ctor_calls vertices size (VAO o) (VBO o) /\
  calls g2 = calls g1 ++ [glDeleteVertexArrays (VAO o); glDeleteBuffers (VBO o)] /\
  (count_calls is_create_vertex_array (calls g1)
     = S (count_calls is_create_vertex_array (calls g)) /\
   count_calls is_create_buffer (calls g1)
     = S (count_calls is_create_buffer (calls g)) /\
   count_calls is_destroy_vertex_array (calls g1)
     = count_calls is_destroy_vertex_array (calls g) /\
   count_calls is_destroy_buffer (calls g1)
     = count_calls is_destroy_buffer (calls g)) /\
  (count_calls is_create_vertex_array (calls g2)
     = count_calls is_create_vertex_array (calls g1) /\
   count_calls is_create_buffer (calls g2)
     = count_calls is_create_buffer (calls g1) /\
   count_calls is_destroy_vertex_array (calls g2)
     = S (count_calls is_destroy_vertex_array (calls g1)) /\
   count_calls is_destroy_buffer (calls g2)
     = S (count_calls is_destroy_buffer (calls g1))) /\
  (VAO o ∈ vertex_arrays g1 /\ VBO o ∈ buffers g1) /\
  (vertex_arrays g2 = vertex_arrays g /\ buffers g2 = buffers g) /\
  stale g2 = stale g.
Proof.
  cbv zeta.
  destruct (next_vertex_array_fresh g) as [_ Hva].
  destruct (next_buffer_fresh g) as [_ Hvb].
  rewrite Object_dtor_run, Object_ctor_eval, !Object_ctor_exec.
  cbn [calls VAO VBO vertex_arrays buffers stale dtor_calls].
  rewrite !count_calls_app.
  split; [reflexivity|]. split; [reflexivity|].
  split; [cbn; repeat split; lia|].
  split; [cbn; repeat split; lia|].
  split; [split; apply taken_in_use|].
  split; [split; now apply take_release|].
  pose proof (taken_in_use (vertex_arrays g) (next_vertex_array g)).
  pose proof (taken_in_use (buffers g) (next_buffer g)).
  repeat case_decide; try contradiction.
  now rewrite app_nil_r.
Qed.

(** ** Programs that copy, and programs that do not *)

Section CopyFree.
Context {F : Type}.

Lemma consistent_init : consistent (F:=F) ([], GL_init).
Proof.
  split; [reflexivity|]. split.
  - intros k o Hk. unfold alive in Hk. cbn in Hk. discriminate.
  - intros k k' o o' _ Hk. unfold alive in Hk. cbn in Hk. discriminate.
Qed.

Lemma alive_snoc (env : Env) (o' : Object) (k : nat) (o : Object) :
  alive (env ++ [(o', true)]) k o ->
  alive env k o \/ (k = length env /\ o = o').
Proof.
  unfold alive. intros Hk.
  destruct (decide (k < length env)%nat) as [Hlt|Hge].
  - left. now rewrite lookup_app_l in Hk.
  - right. rewrite lookup_app_r in Hk by lia.
    destruct (k - length env)%nat as [|n] eqn:Hn; cbn in Hk.
    + split; [lia|congruence].
    + discriminate.
Qed.

Lemma consistent_Construct (vertices : list F) (size : Z) (st : Env * GL F) :
  consistent st -> consistent (step (Construct vertices size) st).
Proof.
  destruct st as [env g]. intros (Hstale & Hlive & Hdistinct).
  cbn [fst snd] in *. unfold step. rewrite Object_ctor_run.
  destruct (next_vertex_array_fresh g) as [_ Hva].
  destruct (next_buffer_fresh g) as [_ Hvb].
  split; [exact Hstale|]. cbn [fst snd vertex_arrays buffers]. split.
  - intros k o Hk. apply alive_snoc in Hk as [Hk|[_ ->]].
    + destruct (Hlive k o Hk) as [Ha Hb].
      split; apply elem_of_union_r; assumption.
    + split; apply taken_in_use.
  - intros k k' o o' Hne Hk Hk'.
    apply alive_snoc in Hk as [Hk|[Hkl ->]];
      apply alive_snoc in Hk' as [Hk'|[Hkl' ->]].
    + exact (Hdistinct k k' o o' Hne Hk Hk').
    + destruct (Hlive k o Hk) as [Ha Hb]. cbn [VAO VBO].
      split; intros Heq; rewrite Heq in *; contradiction.
    + destruct (Hlive k' o' Hk') as [Ha Hb]. cbn [VAO VBO].
      split; intros Heq; rewrite <- Heq in *; contradiction.
    + lia.
Qed.

Lemma consistent_DrawObject (k : nat) (st : Env * GL F) :
  consistent st -> consistent (step (DrawObject k) st).
Proof.
  destruct st as [env g]. intros Hst. unfold step.
  destruct (env !! k) as [[o []]|]; exact Hst.
Qed.

Lemma consistent_Destroy (k : nat) (st : Env * GL F) :
  consistent st -> consistent (step (Destroy k) st).
Proof.
  destruct st as [env g]. intros Hst. unfold step.
  destruct (env !! k) as [[o []]|] eqn:Hk; try exact Hst.
  destruct Hst as (Hstale & Hlive & Hdistinct). cbn [fst snd] in *.
  destruct (Hlive k o Hk) as [Ha Hb].
  destruct (Object_dtor_live o g Ha Hb) as (Hs & Hvas & Hbs).
  assert (Hpast : forall k' o', alive (<[k := (o, false)]> env) k' o' ->
                                k' <> k /\ alive env k' o').
  { intros k' o' Hk'. unfold alive in Hk'.
    destruct (decide (k' = k)) as [->|Hne].
    - rewrite list_lookup_insert_eq in Hk' by (eapply lookup_lt_Some, Hk).
      discriminate.
    - split; [assumption|]. now rewrite list_lookup_insert_ne in Hk' by auto. }
  split; [cbn [fst snd]; congruence|]. cbn [fst snd]. split.
  - intros k' o' Hk'. apply Hpast in Hk' as [Hne Hk'].
    destruct (Hlive k' o' Hk') as [Ha' Hb'].
    destruct (Hdistinct k' k o' o Hne Hk' Hk) as [Hda Hdb].
    rewrite Hvas, Hbs.
    split; apply elem_of_difference; (split; [assumption|]);
      rewrite elem_of_singleton; assumption.
  - intros k1 k2 o1 o2 Hne Hk1 Hk2.
    apply Hpast in Hk1 as [_ Hk1]. apply Hpast in Hk2 as [_ Hk2].
    exact (Hdistinct k1 k2 o1 o2 Hne Hk1 Hk2).
Qed.

Lemma consistent_run (prog : list (Stmt F)) (st : Env * GL F) :
  forallb (fun s => negb (is_Copy s)) prog = true ->
  consistent st -> consistent (run prog st).
Proof.
  revert st. induction prog as [|s prog IH]; intros st Hprog Hst.
  - exact Hst.
  - cbn [forallb] in Hprog. apply andb_prop in Hprog as [Hs Hprog].
    apply (IH (step s st) Hprog).
    destruct s as [vertices size|k|k k'|k|k].
    + now apply consistent_Construct.
    + discriminate.
    + discriminate.
    + now apply consistent_DrawObject.
    + now apply consistent_Destroy.
Qed.
End CopyFree.

(** C8, as stated, fails: the class has no deleted copy constructor, the
    program below copies an object, and when both the original and the copy
    reach the end of their lifetime the second destructor releases the two
    names again: one create of each kind, two destroys of each kind, and both
    calls of the second destructor name a handle no longer in use. *)
Lemma copy_releases_handles_twice :
  let prog : list (Stmt binary32) :=
    [ Construct (FlatWorld.generateVertices (of_int 20)) 18;
      Copy 0; Destroy 0; Destroy 1 ] in
  let g := snd (run prog ([], GL_init)) in
  count_calls is_create_vertex_array (calls g) = 1%nat /\
  count_calls is_create_buffer (calls g) = 1%nat /\
  count_calls is_destroy_vertex_array (calls g) = 2%nat /\
  count_calls is_destroy_buffer (calls g) = 2%nat /\
  stale g = [glDeleteVertexArrays 1; glDeleteBuffers 1].
Proof. vm_compute. repeat split. Qed.

(** C8, amended: a program that never copies an [Object], by construction
    or by assignment, never releases a handle twice. Whatever it constructs,
    draws and destroys, every call of a destructor names two handles that
    are in use. *)
Theorem no_copy_no_double_release (F : Type) (prog : list (Stmt F)) :
  forallb (fun s => negb (is_Copy s)) prog = true ->
  stale (snd (run prog ([], GL_init))) = [].
Proof.
  intros Hprog.
  exact (proj1 (consistent_run prog ([], GL_init) Hprog consistent_init)).
Qed.

(** Two grounds constructed, drawn and destroyed, none copied. *)
Lemma no_copy_no_double_release_witness :
  stale (snd (run (F:=binary32)
                  [ Construct (FlatWorld.generateVertices (of_int 20)) 18;
                    Construct (FlatWorld.generateVertices (of_int 20)) 18;
                    DrawObject 0; Destroy 0; DrawObject 1; Destroy 1 ]
                  ([], GL_init))) = [].
Proof. apply no_copy_no_double_release. reflexivity. Defined.

(** ** What the renderables upload *)

Section UploadFacts.
Context {F : Type} `{Scalar F}.

(** Building a shader program leaves the vertex buffers alone. *)
Lemma Program_ctor_buffer_store (vertexSource fragmentSource : ShaderText) (g : GL F) :
  buffer_store (exec (Program_ctor vertexSource fragmentSource) g) = buffer_store g.
Proof.
  destruct g as [vas bs sos vab abb store log stl].
  unfold Program_ctor, createShaderProgram. gl_run. reflexivity.
Qed.

(** An [Object] built from a whole buffer, followed by a [Program]: the
    buffer is what the graphics API holds under the name [VBO]. *)
Lemma Object_then_Program_uploads
      (vertices : list F) (vertexSource fragmentSource : ShaderText) (g : GL F) :
  let '(base, g1) := Object_ctor vertices (Z.of_nat (length vertices)) g in
  let '(program, g2) := Program_ctor vertexSource fragmentSource g1 in
  buffer_store g2 !! VBO base = Some vertices /\
  vertexCount base = (Z.of_nat (length vertices) ÷ 3)%Z.
Proof.
  rewrite Object_ctor_run.
  match goal with
  | |- context [Program_ctor ?v ?f ?g1] =>
      pose proof (Program_ctor_buffer_store v f g1) as Hstore;
      unfold exec in Hstore;
      destruct (Program_ctor v f g1) as [p g2]
  end.
  cbn [fst snd VBO vertexCount buffer_store] in *.
  rewrite Hstore, lookup_insert_eq, Nat2Z.id, firstn_all. auto.
Qed.

(** The conversion to [int] keeps a length up to [INT_MAX]. *)
Lemma int_of_size_small (n : Z) :
  (0 <= n <= INT_MAX)%Z -> int_of_size n = n.
Proof.
  unfold INT_MAX, int_of_size. intros Hn. rewrite Z.mod_small; lia.
Qed.

(** The length of the cube's buffer fits an [int] up to the resolution
    4459. *)
Lemma cube_length_fits (res : Z) :
  (0 <= res <= 4459)%Z ->
  int_of_size (Z.of_nat (length (CurvedWorld.generateSubdividedCube (F:=F) res)))
  = Z.of_nat (length (CurvedWorld.generateSubdividedCube (F:=F) res)).
Proof.
  intros Hres. apply int_of_size_small.
  rewrite (proj2 (cube_counts res (proj1 Hres))). unfold INT_MAX.
  assert (Hsq : (res * res <= 4459 * 4459)%Z)
    by (apply Z.mul_le_mono_nonneg; lia).
  assert (H0 : (0 <= res * res)%Z) by (apply Z.mul_nonneg_nonneg; lia).
  lia.
Qed.

(** The cube of the curved world, up to the resolution 4459: the buffer is
    the generator's, and the vertex count is [6 * res^2 * 6]. *)
Lemma Cube_ctor_uploads (res : Z) (g : GL F) :
  (0 <= res <= 4459)%Z ->
  let cube := eval (CurvedScene.Cube_ctor res) g in
  let g' := exec (CurvedScene.Cube_ctor res) g in
  buffer_store g' !! VBO (Cube_Object cube) =
    Some (CurvedWorld.generateSubdividedCube res) /\
  vertexCount (Cube_Object cube) = (6 * (res * res) * 6)%Z.
Proof.
  intros Hres. cbv zeta.
  unfold CurvedScene.Cube_ctor, eval, exec, mbind, GLM_bind, mret, GLM_ret.
  rewrite (cube_length_fits res Hres).
  pose proof (Object_then_Program_uploads
                (CurvedWorld.generateSubdividedCube res)
                vertexShaderSource fragmentShaderSource g) as Hup.
  destruct (Object_ctor _ _ g) as [base g1].
  destruct (Program_ctor _ _ g1) as [p g2].
  cbn [fst snd Cube_Object]. destruct Hup as [Hstore Hcount].
  split; [exact Hstore|]. rewrite Hcount.
  rewrite (proj2 (cube_counts res (proj1 Hres))).
  replace (6 * (res * res) * 18)%Z with (6 * (res * res) * 6 * 3)%Z by lia.
  apply Z.quot_mul. lia.
Qed.

(** The ground of the curved world: 1,500,000 vertices, whatever the size. *)
Lemma Ground_ctor_uploads (size : F) (g : GL F) :
  let ground := eval (CurvedScene.Ground_ctor size) g in
  let g' := exec (CurvedScene.Ground_ctor size) g in
  buffer_store g' !! VBO (Ground_Object ground) =
    Some (CurvedWorld.generateVertices size) /\
  vertexCount (Ground_Object ground) = 1500000%Z.
Proof.
  cbv zeta.
  unfold CurvedScene.Ground_ctor, CurvedScene.Ground_ctor3,
    eval, exec, mbind, GLM_bind, mret, GLM_ret.
  assert (Hfit : int_of_size (Z.of_nat (length (CurvedWorld.generateVertices size)))
                 = Z.of_nat (length (CurvedWorld.generateVertices size))).
  { rewrite ground_float_count_500. reflexivity. }
  rewrite Hfit.
  pose proof (Object_then_Program_uploads
                (CurvedWorld.generateVertices size)
                groundVertexShaderSource groundFragmentShaderSource g) as Hup.
  destruct (Object_ctor _ _ g) as [base g1].
  destruct (Program_ctor _ _ g1) as [p g2].
  cbn [fst snd Ground_Object]. destruct Hup as [Hstore Hcount].
  split; [exact Hstore|]. rewrite Hcount, ground_float_count_500. reflexivity.
Qed.

(** The six positions of the flat ground. *)
Lemma flat_ground_vertices (size : F) :
  vertices_of (FlatWorld.generateVertices size) =
  [ mkvec3 (- size)%fl (- of_int 1)%fl (- size)%fl;
    mkvec3 size (- of_int 1)%fl (- size)%fl;
    mkvec3 (- size)%fl (- of_int 1)%fl size;
    mkvec3 size (- of_int 1)%fl (- size)%fl;
    mkvec3 size (- of_int 1)%fl size;
    mkvec3 (- size)%fl (- of_int 1)%fl size ].
Proof. reflexivity. Qed.

(** What the three-argument constructor uploads. *)
Lemma Ground_ctor3_uploads (size : F) (vertexSource fragmentSource : ShaderText)
      (g : GL F) :
  let ground := eval (FlatScene.Ground_ctor3 size vertexSource fragmentSource) g in
  let g' := exec (FlatScene.Ground_ctor3 size vertexSource fragmentSource) g in
  buffer_store g' !! VBO (Ground_Object ground) =
    Some (FlatWorld.generateVertices size) /\
  vertexCount (Ground_Object ground) = 6%Z.
Proof.
  cbv zeta. unfold FlatScene.Ground_ctor3, eval, exec, mbind, GLM_bind, mret, GLM_ret.
  pose proof (Object_then_Program_uploads
                (FlatWorld.generateVertices size) vertexSource fragmentSource g) as Hup.
  destruct (Object_ctor _ _ g) as [base g1].
  destruct (Program_ctor _ _ g1) as [p g2].
  cbn [fst snd Ground_Object]. destruct Hup as [Hstore Hcount].
  split; [exact Hstore|]. rewrite Hcount. reflexivity.
Qed.
End UploadFacts.

(** C9: the one-argument [Ground] constructor of the flat world ignores its
    argument. For every [size] it is the three-argument constructor at the
    literal 20; the buffer it uploads holds the six positions of the square
    of half-extent 20 at height -1, whatever the arithmetic; in real
    arithmetic their X and Z are -20 or 20, so that the ground spans
    [[-20, 20]] in both directions. *)
Theorem flat_ground_ignores_size :
  (forall (F : Type) (SF : Scalar F) (size : F) (g : GL F),
      FlatScene.Ground_ctor size =
        FlatScene.Ground_ctor3 (of_int 20) vertexShaderSource fragmentShaderSource /\
      (let ground := eval (FlatScene.Ground_ctor size) g in
       let g' := exec (FlatScene.Ground_ctor size) g in
       buffer_store g' !! VBO (Ground_Object ground) =
         Some (FlatWorld.generateVertices (of_int 20)) /\
       vertexCount (Ground_Object ground) = 6%Z) /\
      vertices_of (FlatWorld.generateVertices (F:=F) (of_int 20)) =
        [ mkvec3 (- of_int 20)%fl (- of_int 1)%fl (- of_int 20)%fl;
          mkvec3 (of_int 20) (- of_int 1)%fl (- of_int 20)%fl;
          mkvec3 (- of_int 20)%fl (- of_int 1)%fl (of_int 20);
          mkvec3 (of_int 20) (- of_int 1)%fl (- of_int 20)%fl;
          mkvec3 (of_int 20) (- of_int 1)%fl (of_int 20);
          mkvec3 (- of_int 20)%fl (- of_int 1)%fl (of_int 20) ]) /\
  (forall p : vec3 R,
      In p (vertices_of (FlatWorld.generateVertices (F:=R) (of_int 20))) ->
      (vx p = (-20)%R \/ vx p = 20%R) /\ (vz p = (-20)%R \/ vz p = 20%R) /\
      vy p = (-1)%R).
Proof.
  split.
  - intros F SF size g. split; [reflexivity|]. split.
    + exact (Ground_ctor3_uploads (of_int 20) vertexShaderSource fragmentShaderSource g).
    + apply flat_ground_vertices.
  - intros p Hp. rewrite flat_ground_vertices in Hp. cbv [In] in Hp.
    destruct Hp as [<-|[<-|[<-|[<-|[<-|[<-|[]]]]]]]; cbn; auto.
Qed.

(** * Further properties of the code *)

(** ** The camera under keyboard and mouse *)

Lemma ProcessKeyboard_pos_steps (c : Camera R) (keys : Keys) (deltaTime : R) :
  cameraPos (ProcessKeyboard c keys deltaTime) =
  let velocity := (speed c * deltaTime)%R in
  let strafe := normalize (cross (cameraFront c) (cameraUp c)) in
  let p := cameraPos c in
  let p := if KEY_W keys then vadd p (vscale (cameraFront c) velocity) else p in
  let p := if KEY_S keys then vsub p (vscale (cameraFront c) velocity) else p in
  let p := if KEY_A keys then vsub p (vscale strafe velocity) else p in
  let p := if KEY_D keys then vadd p (vscale strafe velocity) else p in
  let p := if KEY_SPACE keys then vadd p (vscale (cameraUp c) velocity) else p in
  if KEY_LEFT_SHIFT keys then vsub p (vscale (cameraUp c) velocity) else p.
Proof.
  destruct keys as [[] [] [] [] [] []]; reflexivity.
Qed.

Lemma ProcessKeyboard_moves (c : Camera R) (keys : Keys) (deltaTime : R) :
  cameraPos (ProcessKeyboard c keys deltaTime) =
  vadd (cameraPos c) (vscale (move_direction c keys) (speed c * deltaTime)%R).
Proof.
  rewrite ProcessKeyboard_pos_steps. unfold move_direction.
  generalize (normalize (cross (cameraFront c) (cameraUp c))).
  generalize (speed c * deltaTime)%R.
  generalize (cameraPos c), (cameraFront c), (cameraUp c).
  intros [px py pz] [fx fy fz] [ux uy uz] v [sx sy sz].
  destruct keys as [[] [] [] [] [] []];
    unfold vadd, vsub, vscale, key_weight;
    cbn [vx vy vz KEY_W KEY_S KEY_A KEY_D KEY_SPACE KEY_LEFT_SHIFT
         fadd fsub fmul R_Scalar];
    f_equal; ring.
Qed.


(** X1. [Camera::ProcessKeyboard] in real arithmetic: the position moves by
    [speed * deltaTime] times the direction the held keys ask for, the six
    tests adding up; nothing else depends on the order of the tests. *)
Theorem keyboard_displacement (c : Camera R) (keys : Keys) (deltaTime : R) :
  cameraPos (ProcessKeyboard c keys deltaTime) =
  vadd (cameraPos c) (vscale (move_direction c keys) (speed c * deltaTime)%R).
Proof. exact (ProcessKeyboard_moves c keys deltaTime). Qed.

(** X2. Opposite keys held together cancel, in real arithmetic: with W and S
    in the same state, A and D in the same state, and SPACE and LEFT_SHIFT in
    the same state, the camera stays where it is. *)
Theorem opposite_keys_cancel (c : Camera R) (ws ad updown : bool) (deltaTime : R) :
  cameraPos (ProcessKeyboard c (mkKeys ws ws ad ad updown updown) deltaTime) =
  cameraPos c.
Proof.
  rewrite ProcessKeyboard_pos_steps.
  cbn [KEY_W KEY_S KEY_A KEY_D KEY_SPACE KEY_LEFT_SHIFT].
  generalize (normalize (cross (cameraFront c) (cameraUp c))).
  generalize (speed c * deltaTime)%R.
  generalize (cameraPos c), (cameraFront c), (cameraUp c).
  intros [px py pz] [fx fy fz] [ux uy uz] v [sx sy sz].
  destruct ws, ad, updown;
    unfold vadd, vsub, vscale;
    cbn [vx vy vz fadd fsub fmul R_Scalar];
    f_equal; ring.
Qed.

Section CameraLifetime.
Context {F : Type} `{Scalar F} `{Trig F}.

Lemma ProcessKeyboard_fixed (c : Camera F) (keys : Keys) (deltaTime : F) :
  let c' := ProcessKeyboard c keys deltaTime in
  cameraUp c' = cameraUp c /\ speed c' = speed c /\
  lastX c' = lastX c /\ lastY c' = lastY c /\ firstMouse c' = firstMouse c.
Proof. destruct keys as [[] [] [] [] [] []]; repeat split. Qed.

Lemma camera_step_fixed (c : Camera F) (ev : CameraEvent F) :
  cameraUp (camera_step c ev) = cameraUp c /\ speed (camera_step c ev) = speed c /\
  lastX (camera_step c ev) = lastX c /\ lastY (camera_step c ev) = lastY c /\
  firstMouse (camera_step c ev) = firstMouse c.
Proof.
  destruct ev as [keys deltaTime|xoffset yoffset b].
  - apply ProcessKeyboard_fixed.
  - repeat split.
Qed.

Lemma camera_run_fixed (evs : list (CameraEvent F)) :
  forall c,
    cameraUp (camera_run c evs) = cameraUp c /\ speed (camera_run c evs) = speed c /\
    lastX (camera_run c evs) = lastX c /\ lastY (camera_run c evs) = lastY c /\
    firstMouse (camera_run c evs) = firstMouse c.
Proof.
  induction evs as [|ev evs IH]; intros c.
  - repeat split.
  - destruct (IH (camera_step c ev)) as (Hu & Hs & Hx & Hy & Hf).
    destruct (camera_step_fixed c ev) as (Hu' & Hs' & Hx' & Hy' & Hf').
    unfold camera_run in *. cbn [fold_left].
    repeat split; congruence.
Qed.
End CameraLifetime.

(** X3. What the camera never changes, for every arithmetic. Over any
    sequence of keyboard and mouse events the up vector, the speed and the
    camera's own [lastX], [lastY] and [firstMouse] keep the values they had
    (the mouse bookkeeping is done on the statics of [Engine], and these three
    members are never read). A keyboard event leaves yaw, pitch and the
    forward vector alone; a mouse event leaves the position alone. *)
Theorem camera_untouched_state
        (F : Type) (SF : Scalar F) (TF : Trig F) (c : Camera F) :
  (forall evs : list (CameraEvent F),
      cameraUp (camera_run c evs) = cameraUp c /\
      speed (camera_run c evs) = speed c /\
      lastX (camera_run c evs) = lastX c /\
      lastY (camera_run c evs) = lastY c /\
      firstMouse (camera_run c evs) = firstMouse c) /\
  (forall (keys : Keys) (deltaTime : F),
      yaw (ProcessKeyboard c keys deltaTime) = yaw c /\
      pitch (ProcessKeyboard c keys deltaTime) = pitch c /\
      cameraFront (ProcessKeyboard c keys deltaTime) = cameraFront c) /\
  (forall (xoffset yoffset : F) (constrainPitch : bool),
      cameraPos (ProcessMouseMovement c xoffset yoffset constrainPitch) = cameraPos c).
Proof.
  split; [|split].
  - intros evs. apply camera_run_fixed.
  - intros keys deltaTime. apply ProcessKeyboard_orientation.
  - reflexivity.
Qed.

Lemma ProcessMouseMovement_pitch_clamp (c : Camera R) (xoffset yoffset : R) :
  pitch (ProcessMouseMovement c xoffset yoffset true) =
  Rmax (-89) (Rmin 89 (pitch c + yoffset * (1 / 10))).
Proof.
  unfold ProcessMouseMovement. cbn.
  destruct (Rlt_dec 89 (pitch c + yoffset * (1 / 10))) as [Hhi|Hhi];
    match goal with
    | |- context [Rlt_dec ?a ?b] => destruct (Rlt_dec a b)
    end; cbn.
  - lra.
  - rewrite Rmin_left, Rmax_right; lra.
  - rewrite Rmin_right, Rmax_left; lra.
  - rewrite Rmin_right, Rmax_right; lra.
Qed.

(** X4. The two tests of [ProcessMouseMovement] are the clamp to
    [[-89, 89]], in real arithmetic: inside the bounds the new pitch is the
    sum, above them 89, below them -89. *)
Theorem constrained_pitch_is_clamp (c : Camera R) (xoffset yoffset : R) :
  pitch (ProcessMouseMovement c xoffset yoffset true) =
  Rmax (-89) (Rmin 89 (pitch c + yoffset * (1 / 10))).
Proof. exact (ProcessMouseMovement_pitch_clamp c xoffset yoffset). Qed.

(** X5. The yaw is never wrapped or clamped: after any run of mouse events
    it is the initial yaw plus a tenth of the sum of the horizontal offsets,
    in real arithmetic, whatever the vertical offsets and [constrainPitch]. *)
Theorem yaw_accumulates (constrainPitch : bool) (c : Camera R)
        (offsets : list (R * R)) :
  yaw (mouse_moves constrainPitch c offsets) =
  (yaw c + fold_right Rplus 0 (map fst offsets) * (1 / 10))%R.
Proof.
  revert c. induction offsets as [|o offsets IH]; intros c.
  - cbn. lra.
  - change (mouse_moves constrainPitch c (o :: offsets))
      with (mouse_moves constrainPitch
              (ProcessMouseMovement c (fst o) (snd o) constrainPitch) offsets).
    rewrite IH, ProcessMouseMovement_yaw. unfold lit. cbn. lra.
Qed.

(** ** The directions the camera moves along *)

Lemma normalize_dot (v : vec3 R) :
  (0 < dot v v)%R -> dot (normalize v) (normalize v) = 1%R.
Proof.
  intros Hv. unfold normalize.
  pose proof (sqrt_sqrt (dot v v) (Rlt_le _ _ Hv)) as Hss.
  pose proof (sqrt_lt_R0 (dot v v) Hv) as Hs.
  cbn [fsqrt R_Trig of_int R_Scalar fdiv].
  set (s := sqrt (dot v v)) in *.
  transitivity (dot v v * (1 / s * (1 / s)))%R.
  - destruct v as [x y z]. unfold dot, vscale. cbn. ring.
  - rewrite <- Hss. field. lra.
Qed.

Lemma cross_up (f : vec3 R) :
  cross f (mkvec3 0%R 1%R 0%R) = mkvec3 (- vz f)%R 0%R (vx f).
Proof. destruct f as [x y z]. unfold cross. cbn. f_equal; ring. Qed.

Lemma radians_pitch_cos (p : R) :
  (-89 <= p <= 89)%R -> (0 < cos (p * (PI / 180)))%R.
Proof.
  intros Hp. pose proof PI_RGT_0 as Hpi.
  apply cos_gt_0.
  - apply Rlt_le_trans with (-89 * (PI / 180))%R; [lra|].
    apply Rmult_le_compat_r; lra.
  - apply Rle_lt_trans with (89 * (PI / 180))%R; [|lra].
    apply Rmult_le_compat_r; lra.
Qed.

Lemma side_of_front (y p : R) :
  let side := cross (front_of y p) (mkvec3 0%R 1%R 0%R) in
  dot side side = (cos (p * (PI / 180)) * cos (p * (PI / 180)))%R.
Proof.
  cbv zeta. rewrite cross_up. unfold dot, front_of. cbn.
  pose proof (sin2_cos2 (y * (PI / 180))) as Hy. unfold Rsqr in Hy.
  set (cy := cos (y * (PI / 180))) in *. set (sy := sin (y * (PI / 180))) in *.
  set (cp := cos (p * (PI / 180))) in *.
  replace (- (sy * cp) * - (sy * cp) + 0 * 0 + cy * cp * (cy * cp))%R
    with (cp * cp * (sy * sy + cy * cy))%R by ring.
  rewrite Hy. ring.
Qed.

(** X6. After a mouse event with the pitch constrained, and with the up
    vector [(0, 1, 0)] the constructor stores, the strafe direction of
    [ProcessKeyboard], [normalize(cross(cameraFront, cameraUp))], is well
    defined in real arithmetic: the cross product is not the null vector
    (its squared length is the squared cosine of the pitch, which the clamp
    keeps positive), its normalisation has length 1, is horizontal and is
    orthogonal to the forward vector. *)
Theorem strafe_defined_after_constrained_move
        (c : Camera R) (xoffset yoffset : R) :
  cameraUp c = mkvec3 0%R 1%R 0%R ->
  let c' := ProcessMouseMovement c xoffset yoffset true in
  let side := cross (cameraFront c') (cameraUp c') in
  (0 < dot side side)%R /\
  dot (normalize side) (normalize side) = 1%R /\
  vy (normalize side) = 0%R /\
  dot (normalize side) (cameraFront c') = 0%R.
Proof.
  intros Hup. cbv zeta.
  pose proof (ProcessMouseMovement_clamps c xoffset yoffset) as Hb.
  unfold pitch_in_bounds in Hb.
  rewrite (ProcessMouseMovement_front c xoffset yoffset true).
  rewrite normalize_front_of.
  change (cameraUp (ProcessMouseMovement c xoffset yoffset true)) with (cameraUp c).
  rewrite Hup.
  set (y := yaw (ProcessMouseMovement c xoffset yoffset true)).
  set (p := pitch (ProcessMouseMovement c xoffset yoffset true)) in *.
  pose proof (radians_pitch_cos p Hb) as Hc.
  assert (Hside : (0 < dot (cross (front_of y p) (mkvec3 0 1 0))
                           (cross (front_of y p) (mkvec3 0 1 0)))%R).
  { rewrite (side_of_front y p). apply Rmult_lt_0_compat; exact Hc. }
  split; [exact Hside|]. split; [apply normalize_dot; exact Hside|].
  rewrite cross_up. unfold normalize, dot, vscale, front_of. cbn.
  split; ring.
Qed.

Lemma strafe_defined_after_constrained_move_witness :
  let c' := ProcessMouseMovement (Camera_ctor (F:=R)) 0%R 0%R true in
  let side := cross (cameraFront c') (cameraUp c') in
  (0 < dot side side)%R /\
  dot (normalize side) (normalize side) = 1%R /\
  vy (normalize side) = 0%R /\
  dot (normalize side) (cameraFront c') = 0%R.
Proof.
  apply (strafe_defined_after_constrained_move Camera_ctor 0%R 0%R).
  reflexivity.
Defined.



(** X8. How far one frame of W moves the camera, in real arithmetic: the
    squared length of the step is [(speed * deltaTime)^2] times the squared
    length of the stored forward vector, which [ProcessKeyboard] does not
    normalise. After any mouse event that factor is 1; from the constructed
    camera, before the first mouse event, it is 1.09, so the same key moves
    the camera further per frame than the strafe keys do. *)
Theorem forward_step_length :
  (forall (c : Camera R) (deltaTime : R),
      let d := vsub (cameraPos (ProcessKeyboard c
                       (mkKeys true false false false false false) deltaTime))
                    (cameraPos c) in
      dot d d = ((speed c * deltaTime) * (speed c * deltaTime)
                 * dot (cameraFront c) (cameraFront c))%R) /\
  (forall (c : Camera R) (xoffset yoffset : R) (b : bool) (deltaTime : R),
      let c' := ProcessMouseMovement c xoffset yoffset b in
      let d := vsub (cameraPos (ProcessKeyboard c'
                       (mkKeys true false false false false false) deltaTime))
                    (cameraPos c') in
      dot d d = ((speed c * deltaTime) * (speed c * deltaTime))%R) /\
  (forall deltaTime : R,
      let c := Camera_ctor (F:=R) in
      let d := vsub (cameraPos (ProcessKeyboard c
                       (mkKeys true false false false false false) deltaTime))
                    (cameraPos c) in
      dot d d = (109 / 100 * ((5 / 2 * deltaTime) * (5 / 2 * deltaTime)))%R).
Proof.
  assert (Hgen : forall (c : Camera R) (deltaTime : R),
             dot (vsub (cameraPos (ProcessKeyboard c
                          (mkKeys true false false false false false) deltaTime))
                       (cameraPos c))
                 (vsub (cameraPos (ProcessKeyboard c
                          (mkKeys true false false false false false) deltaTime))
                       (cameraPos c))
             = ((speed c * deltaTime) * (speed c * deltaTime)
                * dot (cameraFront c) (cameraFront c))%R).
  { intros c deltaTime.
    destruct c as [[px py pz] [fx fy fz] up sp yw pt lx ly fm].
    unfold dot, vsub, vadd, vscale. cbn. ring. }
  split; [exact Hgen|]. split.
  - intros c xoffset yoffset b deltaTime. cbv zeta. rewrite Hgen.
    rewrite (ProcessMouseMovement_front c xoffset yoffset b).
    rewrite normalize_front_of, front_of_dot.
    change (speed (ProcessMouseMovement c xoffset yoffset b)) with (speed c).
    ring.
  - intros deltaTime. cbv zeta. rewrite Hgen, Camera_ctor_front_dot.
    unfold lit. cbn. field.
Qed.

(** X9. With the up vector [(0, 1, 0)], in real arithmetic: the strafe keys
    A and D never change the height of the camera, and SPACE and LEFT_SHIFT
    change nothing but the height, by [speed * deltaTime] up or down. *)
Theorem strafe_and_lift_axes (c : Camera R) (deltaTime : R) :
  cameraUp c = mkvec3 0%R 1%R 0%R ->
  (forall a d : bool,
      vy (cameraPos (ProcessKeyboard c (mkKeys false false a d false false) deltaTime))
      = vy (cameraPos c)) /\
  (forall up down : bool,
      cameraPos (ProcessKeyboard c (mkKeys false false false false up down) deltaTime)
      = mkvec3 (vx (cameraPos c))
               (vy (cameraPos c)
                + (key_weight up - key_weight down) * (speed c * deltaTime))%R
               (vz (cameraPos c))).
Proof.
  intros Hup. split.
  - intros a d. rewrite ProcessKeyboard_moves. unfold move_direction.
    rewrite Hup, cross_up. unfold normalize, vadd, vscale, key_weight.
    cbn. destruct a, d; ring.
  - intros up down. rewrite ProcessKeyboard_moves. unfold move_direction.
    rewrite Hup. generalize (normalize (cross (cameraFront c) (mkvec3 0%R 1%R 0%R))).
    intros [sx sy sz]. destruct (cameraPos c) as [px py pz].
    destruct (cameraFront c) as [fx fy fz].
    unfold vadd, vscale, key_weight. cbn. destruct up, down; f_equal; ring.
Qed.

Lemma strafe_and_lift_axes_witness :
  (forall a d : bool,
      vy (cameraPos (ProcessKeyboard (Camera_ctor (F:=R))
                       (mkKeys false false a d false false) 1%R))
      = vy (cameraPos (Camera_ctor (F:=R)))) /\
  (forall up down : bool,
      cameraPos (ProcessKeyboard (Camera_ctor (F:=R))
                   (mkKeys false false false false up down) 1%R)
      = mkvec3 (vx (cameraPos (Camera_ctor (F:=R))))
               (vy (cameraPos (Camera_ctor (F:=R)))
                + (key_weight up - key_weight down)
                  * (speed (Camera_ctor (F:=R)) * 1))%R
               (vz (cameraPos (Camera_ctor (F:=R))))).
Proof.
  apply (strafe_and_lift_axes Camera_ctor 1%R). reflexivity.
Defined.

(** ** The engine: cursor callback and frame input *)

Lemma last_cons_default {A : Type} (l : list A) :
  forall a d : A, List.last (a :: l) d = List.last l a.
Proof.
  induction l as [|b l IH]; intros a d; [reflexivity|].
  change (List.last (b :: l) d = List.last (b :: l) a).
  rewrite (IH b d), (IH b a). reflexivity.
Qed.

Lemma front_of_initial : front_of (-90)%R 0%R = mkvec3 0%R 0%R (-1)%R.
Proof.
  unfold front_of. cbn.
  replace (-90 * (PI / 180))%R with (- (PI / 2))%R by field.
  rewrite Rmult_0_l, cos_neg, sin_neg, cos_PI2, sin_PI2, cos_0, sin_0.
  f_equal; ring.
Qed.

(** X10. The first cursor position an engine receives, in real arithmetic.
    Wherever the cursor is, the callback takes that position as the previous
    one: both offsets are zero, the yaw is unchanged and the pitch is only
    clamped; the position is remembered and [firstMouse] cleared. On the
    engine as initialised the call still turns the view: the forward vector
    goes from the constructor's [(0, -0.3, -1)] to the level [(0, 0, -1)].
    With no engine stored in the window the callback changes nothing. *)
Theorem first_cursor_sample :
  (forall (e : Engine R) (xpos ypos : R),
      user_pointer (window e) = true -> Engine_firstMouse e = true ->
      let e' := mouse_callback e xpos ypos in
      yaw (camera e') = yaw (camera e) /\
      pitch (camera e') = Rmax (-89) (Rmin 89 (pitch (camera e))) /\
      Engine_lastX e' = xpos /\ Engine_lastY e' = ypos /\
      Engine_firstMouse e' = false) /\
  (forall deltaTime0 xpos ypos : R,
      let e := Engine_init deltaTime0 in
      let e' := mouse_callback e xpos ypos in
      cameraFront (camera e) = mkvec3 0%R (- (3 / 10))%R (-1)%R /\
      cameraFront (camera e') = mkvec3 0%R 0%R (-1)%R /\
      yaw (camera e') = (-90)%R /\ pitch (camera e') = 0%R) /\
  (forall (e : Engine R) (xpos ypos : R),
      user_pointer (window e) = false -> mouse_callback e xpos ypos = e).
Proof.
  assert (Hfirst : forall (e : Engine R) (xpos ypos : R),
             user_pointer (window e) = true -> Engine_firstMouse e = true ->
             camera (mouse_callback e xpos ypos)
             = ProcessMouseMovement (camera e) (xpos - xpos)%R (ypos - ypos)%R true).
  { intros e xpos ypos Hptr Hfm. unfold mouse_callback.
    rewrite Hptr, Hfm. reflexivity. }
  split; [|split].
  - intros e xpos ypos Hptr Hfm. cbv zeta.
    rewrite (Hfirst e xpos ypos Hptr Hfm).
    rewrite ProcessMouseMovement_yaw, ProcessMouseMovement_pitch_clamp.
    unfold mouse_callback. rewrite Hptr, Hfm. unfold lit. cbn.
    replace (pitch (camera e) + (ypos - ypos) * (1 / 10))%R
      with (pitch (camera e)) by ring.
    repeat split. ring.
  - intros deltaTime0 xpos ypos. cbv zeta.
    rewrite (Hfirst (Engine_init deltaTime0) xpos ypos eq_refl eq_refl).
    change (camera (Engine_init deltaTime0)) with (Camera_ctor (F:=R)).
    set (c' := ProcessMouseMovement Camera_ctor (xpos - xpos)%R (ypos - ypos)%R true).
    assert (Hy : yaw c' = (-90)%R).
    { unfold c'. rewrite ProcessMouseMovement_yaw. unfold lit. cbn. ring. }
    assert (Hp : pitch c' = 0%R).
    { unfold c'. rewrite ProcessMouseMovement_pitch_clamp. cbn.
      replace (0 + (ypos - ypos) * (1 / 10))%R with 0%R by ring.
      rewrite Rmin_right, Rmax_right; lra. }
    split; [unfold Camera_ctor, lit; cbn; reflexivity|].
    split; [|split; assumption].
    unfold c'. rewrite (ProcessMouseMovement_front _ _ _ true). fold c'.
    rewrite Hy, Hp, normalize_front_of. apply front_of_initial.
  - intros e xpos ypos Hptr. unfold mouse_callback. rewrite Hptr. reflexivity.
Qed.

Lemma engine_step_firstMouse_clear (e : Engine R) (ev : EngineEvent R) :
  user_pointer (window e) = true -> Engine_firstMouse e = false ->
  user_pointer (window (engine_step e ev)) = true /\
  Engine_firstMouse (engine_step e ev) = false.
Proof.
  intros Hptr Hfm. destruct ev as [xpos ypos|escape keys currentFrame].
  - unfold engine_step, mouse_callback. rewrite Hptr, Hfm. cbn. auto.
  - unfold engine_step, processInput. cbn. destruct escape; auto.
Qed.

(** X11. Once the first cursor position has been taken, the yaw follows the
    cursor, in real arithmetic: after any sequence of cursor callbacks and
    frames it is the yaw before plus a tenth of the distance, in X, from the
    remembered position to the last cursor position received, whatever the
    positions in between and the frames interleaved. *)
Theorem yaw_follows_cursor (e : Engine R) (evs : list (EngineEvent R)) :
  user_pointer (window e) = true -> Engine_firstMouse e = false ->
  yaw (camera (engine_run e evs)) =
  (yaw (camera e)
   + (fst (List.last (cursor_positions evs) (Engine_lastX e, Engine_lastY e))
      - Engine_lastX e) * (1 / 10))%R.
Proof.
  intros Hptr Hfm. revert e Hptr Hfm.
  induction evs as [|ev evs IH]; intros e Hptr Hfm.
  - cbn. ring.
  - destruct (engine_step_firstMouse_clear e ev Hptr Hfm) as [Hptr' Hfm'].
    change (engine_run e (ev :: evs)) with (engine_run (engine_step e ev) evs).
    rewrite (IH _ Hptr' Hfm').
    destruct ev as [xpos ypos|escape keys currentFrame].
    + change (cursor_positions (CursorPos xpos ypos :: evs))
        with ((xpos, ypos) :: cursor_positions evs).
      rewrite last_cons_default.
      unfold engine_step, mouse_callback. rewrite Hptr, Hfm.
      cbn [negb camera Engine_lastX Engine_lastY].
      rewrite ProcessMouseMovement_yaw. unfold lit. cbn. field.
    + change (cursor_positions (FrameInput escape keys currentFrame :: evs))
        with (cursor_positions evs).
      unfold engine_step, processInput. cbn [camera Engine_lastX Engine_lastY].
      destruct (ProcessKeyboard_orientation (camera e) keys
                  (currentFrame - lastFrame e)%fl) as (Hy & _ & _).
      rewrite Hy. reflexivity.
Qed.

Lemma yaw_follows_cursor_witness :
  let e := mouse_callback (Engine_init 0%R) 800%R 600%R in
  let evs := [CursorPos 900%R 600%R;
              FrameInput false (mkKeys true false false false false false) 1%R;
              CursorPos 810%R 500%R] in
  yaw (camera (engine_run e evs)) =
  (yaw (camera e)
   + (fst (List.last (cursor_positions evs) (Engine_lastX e, Engine_lastY e))
      - Engine_lastX e) * (1 / 10))%R.
Proof.
  apply (yaw_follows_cursor (mouse_callback (Engine_init 0%R) 800%R 600%R)).
  - reflexivity.
  - reflexivity.
Defined.

Section EngineFrames.
Context {F : Type} `{Scalar F} `{Trig F}.

Lemma engine_step_window (e : Engine F) (ev : EngineEvent F) :
  user_pointer (window (engine_step e ev)) = user_pointer (window e) /\
  should_close (window (engine_step e ev))
  = should_close (window e) || escape_pressed ev.
Proof.
  destruct ev as [xpos ypos|escape keys currentFrame].
  - unfold engine_step, mouse_callback.
    destruct (user_pointer (window e)) eqn:Hp;
      destruct (Engine_firstMouse e); cbn;
      rewrite ?Hp, orb_false_r; auto.
  - unfold engine_step, processInput. cbn. destruct escape; cbn.
    + rewrite orb_true_r. auto.
    + rewrite orb_false_r. auto.
Qed.

Lemma engine_run_window (evs : list (EngineEvent F)) :
  forall e : Engine F,
    user_pointer (window (engine_run e evs)) = user_pointer (window e) /\
    should_close (window (engine_run e evs))
    = should_close (window e) || existsb escape_pressed evs.
Proof.
  induction evs as [|ev evs IH]; intros e.
  - cbn. rewrite orb_false_r. auto.
  - change (engine_run e (ev :: evs)) with (engine_run (engine_step e ev) evs).
    destruct (IH (engine_step e ev)) as [Hp Hc].
    destruct (engine_step_window e ev) as [Hp' Hc'].
    rewrite Hp, Hc, Hp', Hc'. cbn [existsb]. rewrite orb_assoc. auto.
Qed.
End EngineFrames.

(** X12. The close flag latches, for every arithmetic: after any sequence
    of cursor callbacks and frames the window is asked to close exactly when
    it was already or some frame saw the escape key pressed; nothing the
    engine does clears the flag, and the engine stored in the window stays
    stored. *)
Theorem close_flag_latches
        (F : Type) (SF : Scalar F) (TF : Trig F)
        (e : Engine F) (evs : list (EngineEvent F)) :
  should_close (window (engine_run e evs))
  = should_close (window e) || existsb escape_pressed evs /\
  user_pointer (window (engine_run e evs)) = user_pointer (window e).
Proof.
  destruct (engine_run_window evs e) as [Hp Hc]. split; assumption.
Qed.

Lemma move_direction_ProcessKeyboard (c : Camera R) (keys keys' : Keys) (dt : R) :
  move_direction (ProcessKeyboard c keys dt) keys' = move_direction c keys'.
Proof.
  destruct (ProcessKeyboard_orientation c keys dt) as (_ & _ & Hf).
  destruct (ProcessKeyboard_fixed c keys dt) as (Hu & _).
  unfold move_direction. rewrite Hf, Hu. reflexivity.
Qed.

Lemma frames_position (keys : Keys) (times : list R) :
  forall e : Engine R,
    let e' := engine_run e (map (FrameInput false keys) times) in
    lastFrame e' = List.last times (lastFrame e) /\
    cameraPos (camera e') =
    vadd (cameraPos (camera e))
         (vscale (move_direction (camera e) keys)
                 (speed (camera e) * (List.last times (lastFrame e) - lastFrame e))%R).
Proof.
  induction times as [|t times IH]; intros e.
  - cbn. split; [reflexivity|].
    destruct (cameraPos (camera e)) as [px py pz].
    destruct (move_direction (camera e) keys) as [dx dy dz].
    unfold vadd, vscale. cbn. f_equal; ring.
  - cbv zeta.
    change (engine_run e (map (FrameInput false keys) (t :: times)))
      with (engine_run (processInput e false keys t)
                       (map (FrameInput false keys) times)).
    destruct (IH (processInput e false keys t)) as [Ht Hpos].
    rewrite Ht, Hpos, last_cons_default.
    change (lastFrame (processInput e false keys t)) with t.
    split; [reflexivity|].
    change (camera (processInput e false keys t))
      with (ProcessKeyboard (camera e) keys (t - lastFrame e)%R).
    rewrite move_direction_ProcessKeyboard, ProcessKeyboard_moves.
    destruct (ProcessKeyboard_fixed (camera e) keys (t - lastFrame e)%R)
      as (_ & Hs & _).
    rewrite Hs.
    destruct (cameraPos (camera e)) as [px py pz].
    destruct (move_direction (camera e) keys) as [dx dy dz].
    unfold vadd, vscale. cbn. f_equal; ring.
Qed.

(** X13. Movement does not depend on the frame rate, in real arithmetic:
    with the same keys held over any number of frames and no mouse event in
    between, the camera ends where one frame spanning the whole interval
    would have put it, the position before plus [speed] times the time
    elapsed since [lastFrame] times the direction of the keys; [lastFrame]
    ends as the time of the last frame. *)
Theorem movement_frame_rate_independent
        (e : Engine R) (keys : Keys) (times : list R) :
  let e' := engine_run e (map (FrameInput false keys) times) in
  lastFrame e' = List.last times (lastFrame e) /\
  cameraPos (camera e') =
  vadd (cameraPos (camera e))
       (vscale (move_direction (camera e) keys)
               (speed (camera e) * (List.last times (lastFrame e) - lastFrame e))%R) /\
  cameraPos (camera e') =
  cameraPos (camera (processInput e false keys (List.last times (lastFrame e)))).
Proof.
  cbv zeta. destruct (frames_position keys times e) as [Ht Hpos].
  split; [exact Ht|]. split; [exact Hpos|].
  rewrite Hpos.
  change (camera (processInput e false keys (List.last times (lastFrame e))))
    with (ProcessKeyboard (camera e) keys (List.last times (lastFrame e) - lastFrame e)%R).
  rewrite ProcessKeyboard_moves. reflexivity.
Qed.

(** X14. The five cubes of [main] in [no_test1.cpp] are moved away from the
    axis by vectors that lie, in real arithmetic, in the horizontal plane on
    the circle of radius 5 around it, for every index [i] (the identity
    does not depend on the value of the [PI] macro). *)
Theorem cube_offset_on_circle (i : Z) :
  let o := cube_offset (F:=R) i in
  vy o = 0%R /\ (vx o * vx o + vz o * vz o)%R = 25%R.
Proof.
  cbv zeta. unfold cube_offset. cbn [vx vy vz].
  split; [reflexivity|].
  generalize ((of_int (2 * i) * PI_macro / of_int 5)%fl : R). intros a.
  cbn. pose proof (sin2_cos2 a) as Ha. unfold Rsqr in Ha.
  replace (5 * cos a * (5 * cos a) + - (5) * sin a * (- (5) * sin a))%R
    with (25 * (sin a * sin a + cos a * cos a))%R by ring.
  rewrite Ha. ring.
Qed.

(** ** The triangles of the meshes *)

Section TriangleFacts.
Context {F : Type} `{Scalar F}.

Lemma triangles_of_flat_map {A : Type} (g : A -> list (vec3 F))
      (T : A -> list (vec3 F * vec3 F * vec3 F)) (l : list A) :
  (forall x rest, triangles_of (g x ++ rest) = T x ++ triangles_of rest) ->
  forall rest,
    triangles_of (flat_map g l ++ rest) = flat_map T l ++ triangles_of rest.
Proof.
  intros Hg. induction l as [|x l IH]; intros rest.
  - reflexivity.
  - cbn [flat_map]. rewrite <- !app_assoc, Hg, IH. reflexivity.
Qed.

Lemma triangles_of_grid {A B : Type} (cell : A -> B -> list (vec3 F))
      (rows : list A) (cols : list B) :
  (forall i j rest,
      triangles_of (cell i j ++ rest)
      = triangles_of (cell i j) ++ triangles_of rest) ->
  forall rest,
    triangles_of (flat_map (fun i => flat_map (cell i) cols) rows ++ rest)
    = flat_map (fun i => flat_map (fun j => triangles_of (cell i j)) cols) rows
      ++ triangles_of rest.
Proof.
  intros Hcell.
  apply (triangles_of_flat_map (fun i => flat_map (cell i) cols)
           (fun i => flat_map (fun j => triangles_of (cell i j)) cols)).
  intros i. apply (triangles_of_flat_map (cell i) (fun j => triangles_of (cell i j))).
  intros j. apply Hcell.
Qed.

Lemma cube_triangles (res : Z) :
  triangles_of (vertices_of (CurvedWorld.generateSubdividedCube res)) =
  flat_map (fun normal =>
    flat_map (fun i =>
      flat_map (fun j => triangles_of (cube_cell normal res i j)) (range res))
      (range res)) CurvedWorld.faces.
Proof.
  rewrite generateSubdividedCube_emits, vertices_of_flatten.
  rewrite <- (app_nil_r (flat_map (fun f => cube_face f res) CurvedWorld.faces)).
  rewrite (triangles_of_flat_map (fun f => cube_face f res)
             (fun normal => flat_map (fun i =>
                flat_map (fun j => triangles_of (cube_cell normal res i j))
                         (range res)) (range res))).
  - apply app_nil_r.
  - intros normal. unfold cube_face. apply triangles_of_grid.
    intros i j rest. reflexivity.
Qed.

Lemma ground_triangles (resolution : Z) (size : F) :
  triangles_of (vertices_of (CurvedWorld.generateVertices_at resolution size)) =
  flat_map (fun i =>
    flat_map (fun j => triangles_of (ground_cell resolution size i j))
             (range resolution)) (range resolution).
Proof.
  rewrite generateVertices_at_emits, vertices_of_flatten.
  rewrite <- (app_nil_r (ground_grid resolution size)).
  unfold ground_grid. rewrite triangles_of_grid.
  - apply app_nil_r.
  - intros i j rest. reflexivity.
Qed.

Lemma Forall_flat_map {A B : Type} (P : B -> Prop) (f : A -> list B) (l : list A) :
  (forall x, In x l -> Forall P (f x)) -> Forall P (flat_map f l).
Proof.
  intros Hf. induction l as [|x l IH]; cbn [flat_map].
  - constructor.
  - apply Forall_app. split.
    + apply Hf. left. reflexivity.
    + apply IH. intros y Hy. apply Hf. right. exact Hy.
Qed.

(** The cube has no vertex when the resolution is not positive. *)
Lemma cube_face_nil (normal : vec3 F) (res : Z) :
  (res <= 0)%Z -> cube_face normal res = [].
Proof.
  intros Hres. unfold cube_face, range.
  replace (Z.to_nat res) with 0%nat by lia. reflexivity.
Qed.

(** The positions of a face are the points of its lattice. *)
Lemma In_cube_cell_lattice (normal : vec3 F) (res : Z) (p : vec3 F) :
  (exists i j, (0 <= i < res)%Z /\ (0 <= j < res)%Z /\
               In p (cube_cell normal res i j)) <->
  (exists u v, (1 <= res)%Z /\ (0 <= u <= res)%Z /\ (0 <= v <= res)%Z /\
     p = CurvedWorld.getPoint normal
           (mkvec3 (vy normal) (vz normal) (vx normal))
           (cross normal (mkvec3 (vy normal) (vz normal) (vx normal)))
           (of_int 1 / of_int res)%fl u v).
Proof.
  split.
  - intros (i & j & Hi & Hj & Hp). unfold cube_cell in Hp. simpl in Hp.
    destruct Hp as [<-|[<-|[<-|[<-|[<-|[<-|[]]]]]]].
    + exists i, j. repeat split; lia.
    + exists (i + 1)%Z, j. repeat split; lia.
    + exists i, (j + 1)%Z. repeat split; lia.
    + exists (i + 1)%Z, j. repeat split; lia.
    + exists (i + 1)%Z, (j + 1)%Z. repeat split; lia.
    + exists i, (j + 1)%Z. repeat split; lia.
  - intros (u & v & Hres & Hu & Hv & ->).
    destruct (Z.eq_dec u res) as [Hur|Hur], (Z.eq_dec v res) as [Hvr|Hvr].
    + exists (res - 1)%Z, (res - 1)%Z. split; [lia|]. split; [lia|].
      unfold cube_cell. cbv zeta.
      replace (res - 1 + 1)%Z with res by lia. subst u v.
      right. right. right. right. left. reflexivity.
    + exists (res - 1)%Z, v. split; [lia|]. split; [lia|].
      unfold cube_cell. cbv zeta.
      replace (res - 1 + 1)%Z with res by lia. subst u.
      right. left. reflexivity.
    + exists u, (res - 1)%Z. split; [lia|]. split; [lia|].
      unfold cube_cell. cbv zeta.
      replace (res - 1 + 1)%Z with res by lia. subst v.
      right. right. left. reflexivity.
    + exists u, v. split; [lia|]. split; [lia|].
      left. reflexivity.
Qed.
End TriangleFacts.

(** X15. A cube of non-positive resolution has no vertex at all, for every
    arithmetic: the loops of [addFace] do not run (and the step [1 / res],
    a division by zero at [res = 0], is never used). *)
Theorem cube_empty_without_resolution
        (F : Type) (SF : Scalar F) (res : Z) :
  (res <= 0)%Z -> CurvedWorld.generateSubdividedCube (F:=F) res = [].
Proof.
  intros Hres. rewrite generateSubdividedCube_emits.
  unfold CurvedWorld.faces. cbn [flat_map].
  rewrite !cube_face_nil by exact Hres. reflexivity.
Qed.

Lemma cube_empty_without_resolution_witness :
  CurvedWorld.generateSubdividedCube (F:=binary32) 0 = [] /\
  CurvedWorld.generateSubdividedCube (F:=R) (-3) = [].
Proof.
  split.
  - apply (cube_empty_without_resolution binary32 _ 0%Z). lia.
  - apply (cube_empty_without_resolution R _ (-3)%Z). lia.
Defined.

(** X16. The positions of the cube, for every arithmetic and resolution:
    a position is in the buffer exactly when it is a point [getPoint(u, v)]
    of the lattice of one of the six faces, with [0 <= u, v <= res]. The
    corners that neighbouring cells share are computed by the same
    expression, so they are the same value in every arithmetic. *)
Theorem cube_positions_are_lattice
        (F : Type) (SF : Scalar F) (res : Z) (p : vec3 F) :
  In p (vertices_of (CurvedWorld.generateSubdividedCube res)) <->
  exists normal u v,
    In normal CurvedWorld.faces /\
    (1 <= res)%Z /\ (0 <= u <= res)%Z /\ (0 <= v <= res)%Z /\
    p = CurvedWorld.getPoint normal
          (mkvec3 (vy normal) (vz normal) (vx normal))
          (cross normal (mkvec3 (vy normal) (vz normal) (vx normal)))
          (of_int 1 / of_int res)%fl u v.
Proof.
  rewrite In_cube. split.
  - intros (normal & i & j & Hn & Hi & Hj & Hp).
    destruct (proj1 (In_cube_cell_lattice normal res p)) as (u & v & Huv).
    { exists i, j. auto. }
    exists normal, u, v. split; assumption.
  - intros (normal & u & v & Hn & Huv).
    destruct (proj2 (In_cube_cell_lattice normal res p)) as (i & j & Hij).
    { exists u, v. exact Huv. }
    exists normal, i, j. split; assumption.
Qed.

Lemma vec3_eq (a b : vec3 R) :
  vx a = vx b -> vy a = vy b -> vz a = vz b -> a = b.
Proof. destruct a, b. cbn. intros -> -> ->. reflexivity. Qed.

Lemma cube_cell_winding (normal : vec3 R) (res i j : Z) :
  In normal CurvedWorld.faces ->
  Forall (fun t : vec3 R * vec3 R * vec3 R =>
            let '(a, b, c) := t in
            tri_normal a b c = vscale normal (1 / IZR res * (1 / IZR res))%R /\
            dot normal a = (1 / 2)%R /\ dot normal b = (1 / 2)%R /\
            dot normal c = (1 / 2)%R)
         (triangles_of (cube_cell normal res i j)).
Proof.
  intros Hn. unfold cube_cell. cbv zeta. cbn [triangles_of].
  unfold CurvedWorld.getPoint, lit. cbn [of_int fdiv fmul fsub R_Scalar].
  rewrite !plus_IZR.
  generalize (1 / IZR res)%R as s. generalize (1 / 2)%R as h.
  generalize (IZR i) as u. generalize (IZR j) as v. intros v u h s.
  unfold CurvedWorld.faces in Hn. cbn [In of_int R_Scalar] in Hn.
  destruct Hn as [<-|[<-|[<-|[<-|[<-|[<-|[]]]]]]];
    (constructor; [|constructor; [|constructor]]);
    (split; [apply vec3_eq|];
     unfold tri_normal, dot, cross, vsub, vadd, vscale;
     cbn [vx vy vz fadd fsub fmul R_Scalar]; repeat split; ring).
Qed.

(** ** The winding of the triangles *)

Lemma cube_triangle_count {F : Type} `{Scalar F} (res : Z) :
  (0 <= res)%Z ->
  Z.of_nat (length (triangles_of
                      (vertices_of (CurvedWorld.generateSubdividedCube (F:=F) res))))
  = (12 * (res * res))%Z.
Proof.
  intros Hres. rewrite cube_triangles.
  rewrite (flat_map_length_const _ (2 * Z.to_nat res * Z.to_nat res)).
  - unfold CurvedWorld.faces. cbn [length]. lia.
  - intros normal.
    rewrite (flat_map_length_const _ (2 * Z.to_nat res)), range_length; [lia|].
    intros i. rewrite (flat_map_length_const _ 2), range_length; [lia|].
    reflexivity.
Qed.

(** X17. The winding of the cube, in real arithmetic, for every resolution:
    the buffer is drawn as [12 res^2] triangles, and each of them lies on a
    face of the cube (its three vertices have coordinate 1/2 along the
    face normal) and has as right-hand normal the outward normal of that
    face, scaled by the squared step: every triangle is counter-clockwise
    seen from outside, and none is degenerate. *)
Theorem cube_triangles_face_outward (res : Z) :
  (0 <= res)%Z ->
  Z.of_nat (length (triangles_of
                      (vertices_of (CurvedWorld.generateSubdividedCube (F:=R) res))))
  = (12 * (res * res))%Z /\
  Forall (fun t : vec3 R * vec3 R * vec3 R =>
            let '(a, b, c) := t in
            exists normal,
              In normal CurvedWorld.faces /\
              tri_normal a b c = vscale normal (1 / IZR res * (1 / IZR res))%R /\
              dot normal a = (1 / 2)%R /\ dot normal b = (1 / 2)%R /\
              dot normal c = (1 / 2)%R)
         (triangles_of (vertices_of (CurvedWorld.generateSubdividedCube (F:=R) res))).
Proof.
  intros Hres. split; [apply cube_triangle_count; exact Hres|].
  rewrite cube_triangles.
  apply Forall_flat_map. intros normal Hn.
  apply Forall_flat_map. intros i _.
  apply Forall_flat_map. intros j _.
  pose proof (cube_cell_winding normal res i j Hn) as Hcell.
  refine (List.Forall_impl _ _ Hcell). intros [[a b] c] Ht.
  exists normal. split; [exact Hn|exact Ht].
Qed.

Lemma cube_triangles_face_outward_witness :
  Z.of_nat (length (triangles_of
                      (vertices_of (CurvedWorld.generateSubdividedCube (F:=R) 10))))
  = (12 * (10 * 10))%Z /\
  Forall (fun t : vec3 R * vec3 R * vec3 R =>
            let '(a, b, c) := t in
            exists normal,
              In normal CurvedWorld.faces /\
              tri_normal a b c = vscale normal (1 / IZR 10 * (1 / IZR 10))%R /\
              dot normal a = (1 / 2)%R /\ dot normal b = (1 / 2)%R /\
              dot normal c = (1 / 2)%R)
         (triangles_of (vertices_of (CurvedWorld.generateSubdividedCube (F:=R) 10))).
Proof. apply (cube_triangles_face_outward 10%Z). lia. Defined.

Lemma ground_cell_winding (resolution : Z) (size : R) (i j : Z) :
  Forall (fun t : vec3 R * vec3 R * vec3 R =>
            let '(a, b, c) := t in
            tri_normal a b c =
            mkvec3 0%R (- (size * 2 / IZR resolution * (size * 2 / IZR resolution)))%R 0%R)
         (triangles_of (ground_cell resolution size i j)).
Proof.
  unfold ground_cell. cbv zeta. cbn [triangles_of].
  cbn [of_int fdiv fmul fadd fneg fsub R_Scalar].
  generalize (size * 2 / IZR resolution)%R as s.
  generalize (IZR i) as u. generalize (IZR j) as v. intros v u s.
  constructor; [|constructor; [|constructor]];
    apply vec3_eq;
    unfold tri_normal, cross, vsub; cbn [vx vy vz fadd fsub fmul R_Scalar]; ring.
Qed.

Lemma ground_winding_at (resolution : Z) (size : R) :
  (0 <= resolution)%Z ->
  Z.of_nat (length (triangles_of (vertices_of
              (CurvedWorld.generateVertices_at resolution size))))
  = (2 * (resolution * resolution))%Z /\
  Forall (fun t : vec3 R * vec3 R * vec3 R =>
            let '(a, b, c) := t in
            tri_normal a b c =
            mkvec3 0%R (- (size * 2 / IZR resolution * (size * 2 / IZR resolution)))%R 0%R)
         (triangles_of (vertices_of (CurvedWorld.generateVertices_at resolution size))).
Proof.
  intros Hres. rewrite ground_triangles. split.
  - rewrite (flat_map_length_const _ (2 * Z.to_nat resolution)), range_length; [lia|].
    intros i. rewrite (flat_map_length_const _ 2), range_length; [lia|].
    reflexivity.
  - apply Forall_flat_map. intros i _.
    apply Forall_flat_map. intros j _.
    apply ground_cell_winding.
Qed.

(** X18. The winding of the curved-world ground, in real arithmetic, for
    every half-extent: the buffer is drawn as 500,000 triangles and every
    one has the right-hand normal [(0, -step^2, 0)], with
    [step = size * 2 / 500]. All triangles face the same way, and that way
    is down: seen from above the ground they are clockwise, the opposite of
    the top face of the cubes. *)
Theorem ground_triangles_face_down (size : R) :
  Z.of_nat (length (triangles_of (vertices_of (CurvedWorld.generateVertices size))))
  = 500000%Z /\
  Forall (fun t : vec3 R * vec3 R * vec3 R =>
            let '(a, b, c) := t in
            tri_normal a b c =
            mkvec3 0%R (- (size * 2 / 500 * (size * 2 / 500)))%R 0%R)
         (triangles_of (vertices_of (CurvedWorld.generateVertices size))).
Proof.
  unfold CurvedWorld.generateVertices.
  assert (Hres : (0 <= CurvedWorld.resolution)%Z)
    by (unfold CurvedWorld.resolution; lia).
  exact (ground_winding_at CurvedWorld.resolution size Hres).
Qed.

(** X19. The flat ground of [test3.cpp] is two triangles, and in real
    arithmetic both have the right-hand normal [(0, -(2 size)^2, 0)]: they
    face down like those of the curved ground, and are degenerate only for
    [size = 0]. *)
Theorem flat_ground_triangles_face_down (size : R) :
  exists a b c a' b' c',
    triangles_of (vertices_of (FlatWorld.generateVertices size))
    = [(a, b, c); (a', b', c')] /\
    tri_normal a b c = mkvec3 0%R (- (2 * size * (2 * size)))%R 0%R /\
    tri_normal a' b' c' = mkvec3 0%R (- (2 * size * (2 * size)))%R 0%R.
Proof.
  unfold FlatWorld.generateVertices. cbn [vertices_of triangles_of].
  do 6 eexists. split; [reflexivity|].
  split; apply vec3_eq;
    unfold tri_normal, cross, vsub;
    cbn [vx vy vz fadd fsub fmul fneg of_int R_Scalar]; ring.
Qed.

(** The x coordinate of grid line [u] of the ground of half-extent 20, in
    binary32 differs from the right edge of column 12. *)
Lemma ground20_binary32_column12 :
  forallb
    (fun u : Z =>
       let size : binary32 := of_int 20 in
       let step := (size * of_int 2 / of_int CurvedWorld.resolution)%fl in
       negb (SFeqb (- size + of_int 12 * step + step)%fl
                   (- size + of_int u * step)%fl))
    (range (CurvedWorld.resolution + 1)) = true.
Proof. vm_compute. reflexivity. Qed.

Lemma ground_real_lattice (resolution : Z) (size : R) (p : vec3 R) :
  In p (vertices_of (CurvedWorld.generateVertices_at resolution size)) ->
  exists u v : Z,
    (0 <= u <= resolution)%Z /\ (0 <= v <= resolution)%Z /\
    p = mkvec3 (- size + IZR u * (size * 2 / IZR resolution))%R (-1)%R
               (- size + IZR v * (size * 2 / IZR resolution))%R.
Proof.
  intros Hp. apply In_ground in Hp as (i & j & Hi & Hj & Hp).
  unfold ground_cell in Hp. cbv zeta in Hp.
  cbn [In of_int fdiv fmul fadd fneg fsub R_Scalar] in Hp.
  destruct Hp as [<-|[<-|[<-|[<-|[<-|[<-|[]]]]]]].
  - exists i, j. split; [lia|]. split; [lia|]. reflexivity.
  - exists (i + 1)%Z, j. split; [lia|]. split; [lia|].
    rewrite plus_IZR. apply vec3_eq; cbn; ring.
  - exists i, (j + 1)%Z. split; [lia|]. split; [lia|].
    rewrite plus_IZR. apply vec3_eq; cbn; ring.
  - exists (i + 1)%Z, j. split; [lia|]. split; [lia|].
    rewrite plus_IZR. apply vec3_eq; cbn; ring.
  - exists (i + 1)%Z, (j + 1)%Z. split; [lia|]. split; [lia|].
    rewrite !plus_IZR. apply vec3_eq; cbn; ring.
  - exists i, (j + 1)%Z. split; [lia|]. split; [lia|].
    rewrite plus_IZR. apply vec3_eq; cbn; ring.
Qed.

Lemma ground20_binary32_edge12 (u : Z) :
  (0 <= u <= 500)%Z ->
  SFeqb ((- of_int 20 + of_int 12 * (of_int 20 * of_int 2 / of_int 500)
          + of_int 20 * of_int 2 / of_int 500)%fl : binary32)
        ((- of_int 20 + of_int u * (of_int 20 * of_int 2 / of_int 500))%fl : binary32)
  = false.
Proof.
  intros Hu.
  assert (Hin : In u (range (CurvedWorld.resolution + 1))).
  { apply In_range. unfold CurvedWorld.resolution. lia. }
  pose proof (proj1 (forallb_forall _ _) ground20_binary32_column12 u Hin) as Hne.
  cbv beta zeta in Hne. unfold CurvedWorld.resolution in Hne.
  apply negb_true_iff in Hne. exact Hne.
Qed.

Lemma ground20_binary32_edge12_in_buffer :
  In (mkvec3 ((- of_int 20 + of_int 12 * (of_int 20 * of_int 2 / of_int 500)
               + of_int 20 * of_int 2 / of_int 500)%fl : binary32)
             (- of_int 1)%fl
             (- of_int 20 + of_int 0 * (of_int 20 * of_int 2 / of_int 500))%fl)
     (vertices_of (CurvedWorld.generateVertices (of_int 20))).
Proof.
  unfold CurvedWorld.generateVertices.
  refine (proj2 (In_ground CurvedWorld.resolution _ _) _).
  exists 12%Z, 0%Z. unfold CurvedWorld.resolution.
  split; [lia|]. split; [lia|].
  unfold ground_cell. cbv zeta.
  right. left. reflexivity.
Qed.

(** X20. The grid of the curved-world ground. In real arithmetic every
    position of the buffer is a crossing of two of the 501 grid lines
    [-size + u * step], so neighbouring cells meet exactly. In binary32, at
    the half-extent 20 of the programs, they do not: the buffer holds a
    position, the right edge [x + step] of column 12, whose X is none of the
    501 values [-size + u * step] the left edges are computed as, so the
    edge shared by columns 12 and 13 has two different X values. *)
Theorem ground_grid_exact_in_reals_only :
  (forall (size : R) (p : vec3 R),
      In p (vertices_of (CurvedWorld.generateVertices size)) ->
      exists u v : Z,
        (0 <= u <= 500)%Z /\ (0 <= v <= 500)%Z /\
        p = mkvec3 (- size + IZR u * (size * 2 / 500))%R (-1)%R
                   (- size + IZR v * (size * 2 / 500))%R) /\
  (exists x y z : binary32,
      In (mkvec3 x y z) (vertices_of (CurvedWorld.generateVertices (of_int 20))) /\
      forall u : Z,
        (0 <= u <= 500)%Z ->
        let line : binary32 :=
          (- of_int 20 + of_int u * (of_int 20 * of_int 2 / of_int 500))%fl in
        SFeqb x line = false).
Proof.
  split.
  - intros size p Hp. unfold CurvedWorld.generateVertices in Hp.
    destruct (ground_real_lattice CurvedWorld.resolution size p Hp)
      as (u & v & Hu & Hv & Heq).
    clear Hp. unfold CurvedWorld.resolution in Hu, Hv, Heq.
    exists u, v. split; [exact Hu|]. split; [exact Hv|exact Heq].
  - refine (ex_intro _ _ (ex_intro _ _ (ex_intro _ _
              (conj ground20_binary32_edge12_in_buffer _)))).
    intros u Hu. cbv zeta. exact (ground20_binary32_edge12 u Hu).
Qed.

(** ** Meshes and programs on the graphics API *)

Section DrawFacts.
Context {F : Type}.

Lemma vertices_of_length_mul (buf : list F) :
  forall n : nat,
    (length buf < 3 * S n)%nat ->
    (3 * length (vertices_of buf) <= length buf < 3 * length (vertices_of buf) + 3)%nat.
Proof.
  intros n. revert buf. induction n as [|n IH]; intros buf Hlen.
  - destruct buf as [|x [|y [|z rest]]]; cbn in *; lia.
  - destruct buf as [|x [|y [|z rest]]]; cbn [vertices_of length] in *; try lia.
    specialize (IH rest). lia.
Qed.

(** The positions of a buffer are its floats, three at a time; up to two
    trailing floats belong to no position. *)
Lemma vertices_of_length (buf : list F) :
  Z.of_nat (length (vertices_of buf)) = (Z.of_nat (length buf) ÷ 3)%Z.
Proof.
  pose proof (vertices_of_length_mul buf (length buf)) as Hb.
  rewrite Z.quot_div_nonneg by lia.
  apply Z.div_unique with (r := (Z.of_nat (length buf)
                                 - 3 * Z.of_nat (length (vertices_of buf)))%Z); lia.
Qed.

Lemma Program_ctor_run (vertexSource fragmentSource : ShaderText) (g : GL F) :
  let v := fresh ({[0]} ∪ shader_objects g) in
  let f := fresh ({[0]} ∪ ({[v]} ∪ shader_objects g)) in
  let p := fresh ({[0]} ∪ ({[f]} ∪ ({[v]} ∪ shader_objects g))) in
  Program_ctor vertexSource fragmentSource g =
  (mkProgram v f p,
   mkGL (vertex_arrays g) (buffers g)
        (({[p]} ∪ ({[f]} ∪ ({[v]} ∪ shader_objects g))) ∖ {[v]} ∖ {[f]})
        (vertex_array_binding g) (array_buffer_binding g) (buffer_store g)
        (calls g ++
         [glCreateShader GL_VERTEX_SHADER v; glShaderSource v vertexSource;
          glCompileShader v;
          glCreateShader GL_FRAGMENT_SHADER f; glShaderSource f fragmentSource;
          glCompileShader f;
          glCreateProgram p; glAttachShader p v; glAttachShader p f;
          glLinkProgram p; glDeleteShader v; glDeleteShader f])
        (stale g)).
Proof.
  destruct g as [vas bs sos vab abb store log stl].
  unfold Program_ctor, createShaderProgram. gl_run.
  rewrite <- !app_assoc. reflexivity.
Qed.

Lemma fresh_three (X : gset GLuint) :
  let v := fresh ({[0]} ∪ X) in
  let f := fresh ({[0]} ∪ ({[v]} ∪ X)) in
  let p := fresh ({[0]} ∪ ({[f]} ∪ ({[v]} ∪ X))) in
  (v <> 0 /\ f <> 0 /\ p <> 0) /\
  (v <> f /\ v <> p /\ f <> p) /\
  ((v ∉ X) /\ (f ∉ X) /\ (p ∉ X)) /\
  ({[p]} ∪ ({[f]} ∪ ({[v]} ∪ X))) ∖ {[v]} ∖ {[f]} = {[p]} ∪ X.
Proof.
  intros v f p.
  pose proof (is_fresh ({[0]} ∪ X)) as Hv.
  pose proof (is_fresh ({[0]} ∪ ({[v]} ∪ X))) as Hf.
  pose proof (is_fresh ({[0]} ∪ ({[f]} ∪ ({[v]} ∪ X)))) as Hp.
  change (v ∉ {[0]} ∪ X) in Hv.
  change (f ∉ {[0]} ∪ ({[v]} ∪ X)) in Hf.
  change (p ∉ {[0]} ∪ ({[f]} ∪ ({[v]} ∪ X))) in Hp.
  clearbody v f p.
  rewrite !not_elem_of_union, !not_elem_of_singleton in Hv.
  rewrite !not_elem_of_union, !not_elem_of_singleton in Hf.
  rewrite !not_elem_of_union, !not_elem_of_singleton in Hp.
  destruct Hv as [Hv0 HvS]. destruct Hf as (Hf0 & Hfv & HfS).
  destruct Hp as (Hp0 & Hpf & Hpv & HpS).
  split; [auto|]. split; [auto|]. split; [auto|].
  apply set_eq. intros x.
  rewrite !elem_of_difference, !elem_of_union, !elem_of_singleton.
  split.
  - intros [[[Hx|[Hx|[Hx|Hx]]] Hxv] Hxf]; auto; contradiction.
  - intros [Hx|Hx].
    + subst x. auto.
    + split; [split; [auto|]|]; intros ->; contradiction.
Qed.
End DrawFacts.

(** X21. An [Object] built from a whole array and then drawn, for every
    array and state of the graphics API: the buffer the API holds under the
    object's name is the array; the vertex count is the number of complete
    positions of the array (up to two trailing floats are uploaded and not
    drawn); and [Draw] issues one [glDrawArrays] over exactly that many
    vertices, between binding the object's vertex array and unbinding it. *)
Theorem draw_covers_uploaded_positions
        (F : Type) (vertices : list F) (g : GL F) :
  let o := eval (Object_ctor vertices (Z.of_nat (length vertices))) g in
  let g1 := exec (Object_ctor vertices (Z.of_nat (length vertices))) g in
  buffer_store g1 !! VBO o = Some vertices /\
  vertexCount o = Z.of_nat (length (vertices_of vertices)) /\
  calls (exec (Draw o) g1) =
  calls g1 ++ [glBindVertexArray (VAO o);
               glDrawArrays 0 (Z.of_nat (length (vertices_of vertices)));
               glBindVertexArray 0].
Proof.
  cbv zeta. rewrite Draw_run, Object_ctor_eval, Object_ctor_exec.
  cbn [buffer_store VBO VAO vertexCount calls].
  rewrite lookup_insert_eq, Nat2Z.id, firstn_all, vertices_of_length.
  auto.
Qed.

Lemma Program_ctor_effect
      {F : Type} (vertexSource fragmentSource : ShaderText) (g : GL F) :
  let P := eval (Program_ctor vertexSource fragmentSource) g in
  let g' := exec (Program_ctor vertexSource fragmentSource) g in
  (vertexShader P <> 0 /\ fragmentShader P <> 0 /\ shaderProgram P <> 0) /\
  (vertexShader P <> fragmentShader P /\ vertexShader P <> shaderProgram P /\
   fragmentShader P <> shaderProgram P) /\
  ((vertexShader P ∉ shader_objects g) /\ (fragmentShader P ∉ shader_objects g) /\
   (shaderProgram P ∉ shader_objects g)) /\
  shader_objects g' = {[shaderProgram P]} ∪ shader_objects g /\
  vertex_arrays g' = vertex_arrays g /\ buffers g' = buffers g /\
  buffer_store g' = buffer_store g /\
  vertex_array_binding g' = vertex_array_binding g /\
  array_buffer_binding g' = array_buffer_binding g /\
  stale g' = stale g /\
  calls g' =
  calls g ++
  [glCreateShader GL_VERTEX_SHADER (vertexShader P);
   glShaderSource (vertexShader P) vertexSource;
   glCompileShader (vertexShader P);
   glCreateShader GL_FRAGMENT_SHADER (fragmentShader P);
   glShaderSource (fragmentShader P) fragmentSource;
   glCompileShader (fragmentShader P);
   glCreateProgram (shaderProgram P);
   glAttachShader (shaderProgram P) (vertexShader P);
   glAttachShader (shaderProgram P) (fragmentShader P);
   glLinkProgram (shaderProgram P);
   glDeleteShader (vertexShader P); glDeleteShader (fragmentShader P)].
Proof.
  cbv zeta. unfold eval, exec.
  pose proof (Program_ctor_run vertexSource fragmentSource g) as Hrun.
  cbv zeta in Hrun. rewrite Hrun.
  cbn [fst snd vertexShader fragmentShader shaderProgram shader_objects
       vertex_arrays buffers buffer_store vertex_array_binding
       array_buffer_binding stale calls].
  destruct (fresh_three (shader_objects g)) as (H0 & Hd & HS & Hset).
  split; [exact H0|]. split; [exact Hd|]. split; [exact HS|].
  split; [exact Hset|]. repeat split.
Qed.

(** X22. [Program::Program] on the graphics API, from any state: it creates
    two shader objects and one program object under three names that are
    new, non-zero and distinct, deletes the two shader objects once the
    program is linked, and leaves the program object in use; vertex arrays,
    buffers, their contents and the bindings are untouched. *)
Theorem Program_ctor_keeps_program_only
        (F : Type) (vertexSource fragmentSource : ShaderText) (g : GL F) :
  let P := eval (Program_ctor vertexSource fragmentSource) g in
  let g' := exec (Program_ctor vertexSource fragmentSource) g in
  (vertexShader P <> 0 /\ fragmentShader P <> 0 /\ shaderProgram P <> 0) /\
  (vertexShader P <> fragmentShader P /\ vertexShader P <> shaderProgram P /\
   fragmentShader P <> shaderProgram P) /\
  ((vertexShader P ∉ shader_objects g) /\ (fragmentShader P ∉ shader_objects g) /\
   (shaderProgram P ∉ shader_objects g)) /\
  shader_objects g' = {[shaderProgram P]} ∪ shader_objects g /\
  vertex_arrays g' = vertex_arrays g /\ buffers g' = buffers g /\
  buffer_store g' = buffer_store g /\
  vertex_array_binding g' = vertex_array_binding g /\
  array_buffer_binding g' = array_buffer_binding g /\
  stale g' = stale g /\
  calls g' =
  calls g ++
  [glCreateShader GL_VERTEX_SHADER (vertexShader P);
   glShaderSource (vertexShader P) vertexSource;
   glCompileShader (vertexShader P);
   glCreateShader GL_FRAGMENT_SHADER (fragmentShader P);
   glShaderSource (fragmentShader P) fragmentSource;
   glCompileShader (fragmentShader P);
   glCreateProgram (shaderProgram P);
   glAttachShader (shaderProgram P) (vertexShader P);
   glAttachShader (shaderProgram P) (fragmentShader P);
   glLinkProgram (shaderProgram P);
   glDeleteShader (vertexShader P); glDeleteShader (fragmentShader P)].
Proof. exact (Program_ctor_effect vertexSource fragmentSource g). Qed.

Lemma Cube_ctor_run {F : Type} `{Scalar F} (res : Z) (g : GL F) :
  let vertices := CurvedWorld.generateSubdividedCube res in
  let size := int_of_size (Z.of_nat (length vertices)) in
  let g1 := exec (Object_ctor vertices size) g in
  eval (CurvedScene.Cube_ctor res) g =
  mkCube (eval (Object_ctor vertices size) g)
         (eval (Program_ctor vertexShaderSource fragmentShaderSource) g1) /\
  exec (CurvedScene.Cube_ctor res) g =
  exec (Program_ctor vertexShaderSource fragmentShaderSource) g1.
Proof.
  cbv zeta. unfold CurvedScene.Cube_ctor, eval, exec, mbind, GLM_bind, mret, GLM_ret.
  destruct (Object_ctor _ _ g) as [base g1]. cbn [fst snd].
  destruct (Program_ctor _ _ g1) as [p g2]. split; reflexivity.
Qed.

Lemma Object_ctor_names {F : Type} (vertices : list F) (size : Z) (g : GL F) :
  let o := eval (Object_ctor vertices size) g in
  let g1 := exec (Object_ctor vertices size) g in
  VAO o = next_vertex_array g /\ VBO o = next_buffer g /\
  vertex_arrays g1 = {[next_vertex_array g]} ∪ vertex_arrays g /\
  buffers g1 = {[next_buffer g]} ∪ buffers g /\
  shader_objects g1 = shader_objects g /\ stale g1 = stale g.
Proof.
  cbv zeta. rewrite Object_ctor_eval, Object_ctor_exec.
  split; [reflexivity|]. split; [reflexivity|]. split; [reflexivity|].
  split; [reflexivity|]. split; reflexivity.
Qed.

Lemma Object_dtor_shader_objects {F : Type} (o : Object) (g : GL F) :
  shader_objects (exec (Object_dtor o) g) = shader_objects g.
Proof. rewrite Object_dtor_run. reflexivity. Qed.

(** X23. The lifetime of a [Cube] on the graphics API, for every
    resolution, arithmetic and state. The class has no destructor of its
    own and [Program] has none, so the end of the lifetime runs
    [Object::~Object] alone: the vertex array and the buffer are released
    (the names in use are those in use before the construction, and nothing
    is released twice), while the program object created by the constructor
    stays in use: each cube leaves one program object behind. *)
Theorem Cube_lifetime_leaves_program
        (F : Type) (SF : Scalar F) (res : Z) (g : GL F) :
  let cube := eval (CurvedScene.Cube_ctor res) g in
  let g1 := exec (CurvedScene.Cube_ctor res) g in
  let g2 := exec (Object_dtor (Cube_Object cube)) g1 in
  vertex_arrays g2 = vertex_arrays g /\ buffers g2 = buffers g /\
  stale g2 = stale g /\
  (shaderProgram (cubeprogram cube) ∉ shader_objects g) /\
  shader_objects g2 = {[shaderProgram (cubeprogram cube)]} ∪ shader_objects g.
Proof.
  cbv zeta.
  destruct (Cube_ctor_run res g) as [Heval Hexec]. rewrite Heval, Hexec.
  cbn [Cube_Object cubeprogram].
  generalize (CurvedWorld.generateSubdividedCube (F:=F) res). intros vertices.
  generalize (int_of_size (Z.of_nat (length vertices))). intros size.
  destruct (Object_ctor_names vertices size g)
    as (HVAO & HVBO & Hva1 & Hb1 & Hso1 & Hst1).
  destruct (Program_ctor_effect vertexShaderSource fragmentShaderSource
              (exec (Object_ctor vertices size) g))
    as (_ & _ & (_ & _ & Hfresh) & Hso & Hva & Hb & _ & _ & _ & Hst & _).
  revert HVAO HVBO Hva1 Hb1 Hso1 Hst1 Hfresh Hso Hva Hb Hst.
  generalize (eval (Program_ctor (F:=F) vertexShaderSource fragmentShaderSource)
                (exec (Object_ctor vertices size) g)).
  generalize (exec (Program_ctor (F:=F) vertexShaderSource fragmentShaderSource)
                (exec (Object_ctor vertices size) g)).
  generalize (eval (Object_ctor vertices size) g).
  generalize (exec (Object_ctor vertices size) g).
  intros g1 o g2 P HVAO HVBO Hva1 Hb1 Hso1 Hst1 Hfresh Hso Hva Hb Hst.
  destruct (next_vertex_array_fresh g) as [_ Hvao].
  destruct (next_buffer_fresh g) as [_ Hvbo].
  assert (Hin1 : VAO o ∈ vertex_arrays g2).
  { rewrite Hva, Hva1, HVAO. apply taken_in_use. }
  assert (Hin2 : VBO o ∈ buffers g2).
  { rewrite Hb, Hb1, HVBO. apply taken_in_use. }
  destruct (Object_dtor_live o g2 Hin1 Hin2) as (Hs & Hv & Hbf).
  rewrite Hs, Hv, Hbf, Object_dtor_shader_objects.
  rewrite Hva, Hva1, HVAO, Hb, Hb1, HVBO, Hst, Hst1, Hso, Hso1.
  rewrite (take_release _ _ Hvao), (take_release _ _ Hvbo).
  rewrite Hso1 in Hfresh.
  split; [reflexivity|]. split; [reflexivity|]. split; [reflexivity|].
  split; [exact Hfresh|reflexivity].
Qed.

(** ** Frames and draw calls *)

(** X24. Drawing creates and releases nothing, for every state of the
    graphics API and every sequence of objects, live or not: after one
    frame's draws the vertex arrays, buffers and shader objects in use, the
    contents of the buffers and the stale releases are what they were, and
    the calls issued are, object after object, bind, one [glDrawArrays] of
    the object's vertex count, unbind. *)
Theorem drawing_keeps_resources
        (F : Type) (objects : list Object) (g : GL F) :
  vertex_arrays (draw_all objects g) = vertex_arrays g /\
  buffers (draw_all objects g) = buffers g /\
  shader_objects (draw_all objects g) = shader_objects g /\
  buffer_store (draw_all objects g) = buffer_store g /\
  stale (draw_all objects g) = stale g /\
  calls (draw_all objects g) =
  calls g ++ flat_map (fun o => [glBindVertexArray (VAO o);
                                 glDrawArrays 0 (vertexCount o);
                                 glBindVertexArray 0]) objects.
Proof.
  revert g. induction objects as [|o objects IH]; intros g.
  - cbn. rewrite app_nil_r. repeat split.
  - change (draw_all (o :: objects) g) with (draw_all objects (exec (Draw o) g)).
    destruct (IH (exec (Draw o) g)) as (Hva & Hb & Hso & Hbs & Hst & Hc).
    rewrite Hva, Hb, Hso, Hbs, Hst, Hc, Draw_run.
    cbn [vertex_arrays buffers shader_objects buffer_store stale calls flat_map].
    rewrite <- app_assoc. repeat split.
Qed.

(** The vertex count of a cube, whatever the resolution: the length of the
    buffer, [6 * res^2 * 18] floats, converted to [int] and divided by 3. *)
Lemma Cube_vertexCount {F : Type} `{Scalar F} (res : Z) (g : GL F) :
  (0 <= res)%Z ->
  vertexCount (Cube_Object (eval (CurvedScene.Cube_ctor res) g))
  = (int_of_size (6 * (res * res) * 18) ÷ 3)%Z.
Proof.
  intros Hres. destruct (Cube_ctor_run res g) as [Heval _]. rewrite Heval.
  cbn [Cube_Object]. rewrite Object_ctor_eval. cbn [vertexCount].
  rewrite (proj2 (cube_counts res Hres)). reflexivity.
Qed.

(** X25. What a [Cube] of the curved world draws, for every arithmetic and
    state. For every resolution from 0 to 4459 the buffer under its name is
    the output of [generateSubdividedCube], and [Draw] issues
    [glDrawArrays(GL_TRIANGLES, 0, 6 * res^2 * 6)], three vertices for each
    of the [12 res^2] triangles of the buffer. From the resolution 4460 the
    length of the buffer, [108 * res^2] floats, no longer fits the [int] it
    is cast to: at 4460 the vertex count handed to [glDrawArrays] is
    -715558165. *)
Theorem Cube_draws_whole_mesh (F : Type) (SF : Scalar F) :
  (forall (res : Z) (g : GL F),
      (0 <= res <= 4459)%Z ->
      let cube := eval (CurvedScene.Cube_ctor res) g in
      let g1 := exec (CurvedScene.Cube_ctor res) g in
      buffer_store g1 !! VBO (Cube_Object cube)
      = Some (CurvedWorld.generateSubdividedCube res) /\
      calls (exec (Draw (Cube_Object cube)) g1) =
      calls g1 ++ [glBindVertexArray (VAO (Cube_Object cube));
                   glDrawArrays 0 (6 * (res * res) * 6);
                   glBindVertexArray 0] /\
      (3 * Z.of_nat (length (triangles_of
                               (vertices_of
                                  (CurvedWorld.generateSubdividedCube (F:=F) res)))))%Z
      = (6 * (res * res) * 6)%Z) /\
  (forall g : GL F,
      (6 * (4460 * 4460) * 18 > INT_MAX)%Z /\
      vertexCount (Cube_Object (eval (CurvedScene.Cube_ctor 4460) g))
      = (-715558165)%Z /\
      calls (exec (Draw (Cube_Object (eval (CurvedScene.Cube_ctor 4460) g)))
                  (exec (CurvedScene.Cube_ctor 4460) g)) =
      calls (exec (CurvedScene.Cube_ctor 4460) g)
      ++ [glBindVertexArray (VAO (Cube_Object (eval (CurvedScene.Cube_ctor 4460) g)));
          glDrawArrays 0 (-715558165);
          glBindVertexArray 0]).
Proof.
  split.
  - intros res g Hres. cbv zeta.
    destruct (Cube_ctor_uploads res g Hres) as [Hstore Hcount].
    split; [exact Hstore|]. rewrite Draw_run. cbn [calls]. rewrite Hcount.
    split; [reflexivity|]. rewrite (cube_triangle_count res (proj1 Hres)). lia.
  - intros g.
    assert (Hcount : vertexCount (Cube_Object (eval (CurvedScene.Cube_ctor 4460) g))
                     = (-715558165)%Z).
    { rewrite (Cube_vertexCount 4460 g) by lia. reflexivity. }
    split; [unfold INT_MAX; lia|]. split; [exact Hcount|].
    rewrite Draw_run. cbn [calls]. rewrite Hcount. reflexivity.
Qed.

Lemma Cube_draws_whole_mesh_witness :
  let cube := eval (CurvedScene.Cube_ctor (F:=binary32) 10) GL_init in
  let g1 := exec (CurvedScene.Cube_ctor (F:=binary32) 10) GL_init in
  buffer_store g1 !! VBO (Cube_Object cube)
  = Some (CurvedWorld.generateSubdividedCube 10) /\
  calls (exec (Draw (Cube_Object cube)) g1) =
  calls g1 ++ [glBindVertexArray (VAO (Cube_Object cube));
               glDrawArrays 0 (6 * (10 * 10) * 6);
               glBindVertexArray 0] /\
  (3 * Z.of_nat (length (triangles_of
                           (vertices_of (CurvedWorld.generateSubdividedCube
                                           (F:=binary32) 10)))))%Z
  = (6 * (10 * 10) * 6)%Z.
Proof.
  apply (proj1 (Cube_draws_whole_mesh binary32 _) 10%Z GL_init). lia.
Defined.

(** X26. What the [Ground] of the curved world draws, for every half-extent,
    arithmetic and state: the buffer under its name is the output of
    [generateVertices], and [Draw] issues
    [glDrawArrays(GL_TRIANGLES, 0, 1500000)], whatever the size of the
    ground. *)
Theorem Ground_draws_whole_mesh
        (F : Type) (SF : Scalar F) (size : F) (g : GL F) :
  let ground := eval (CurvedScene.Ground_ctor size) g in
  let g1 := exec (CurvedScene.Ground_ctor size) g in
  buffer_store g1 !! VBO (Ground_Object ground)
  = Some (CurvedWorld.generateVertices size) /\
  calls (exec (Draw (Ground_Object ground)) g1) =
  calls g1 ++ [glBindVertexArray (VAO (Ground_Object ground));
               glDrawArrays 0 1500000;
               glBindVertexArray 0].
Proof.
  cbv zeta. destruct (Ground_ctor_uploads size g) as [Hstore Hcount].
  split; [exact Hstore|]. rewrite Draw_run. cbn [calls]. rewrite Hcount.
  reflexivity.
Qed.

Lemma cons_eq {A : Type} (x y : A) (l l' : list A) :
  x = y -> l = l' -> x :: l = y :: l'.
Proof. intros -> ->. reflexivity. Qed.

(** X27. The cube of the flat world, [cubeVertices] of [test3.cpp]: 108
    floats, that is 36 positions and 12 triangles, and [Cube::Cube] hands
    the whole array to [Object]. In real arithmetic every coordinate is
    -1/2 or 1/2, and the triangles do not all wind the same way: those of
    the front, left and bottom faces are counter-clockwise seen from
    outside, those of the back, right and top faces clockwise (opposite
    faces hold the same triangles, shifted). The generated cube of
    [no_test1.cpp] has all its triangles counter-clockwise. *)
Theorem flat_cube_winding_mixed :
  (forall (F : Type) (SF : Scalar F),
      Z.of_nat (length (FlatCube.cubeVertices (F:=F))) = 108%Z /\
      length (vertices_of (FlatCube.cubeVertices (F:=F))) = 36%nat /\
      length (triangles_of (vertices_of (FlatCube.cubeVertices (F:=F)))) = 12%nat) /\
  Forall (fun p : vec3 R =>
            (vx p = (- (1 / 2))%R \/ vx p = (1 / 2)%R) /\
            (vy p = (- (1 / 2))%R \/ vy p = (1 / 2)%R) /\
            (vz p = (- (1 / 2))%R \/ vz p = (1 / 2)%R))
         (vertices_of (FlatCube.cubeVertices (F:=R))) /\
  map facing (triangles_of (vertices_of (FlatCube.cubeVertices (F:=R)))) =
  [ (- (1 / 2))%R; (- (1 / 2))%R; (1 / 2)%R; (1 / 2)%R;
    (1 / 2)%R; (1 / 2)%R; (- (1 / 2))%R; (- (1 / 2))%R;
    (1 / 2)%R; (1 / 2)%R; (- (1 / 2))%R; (- (1 / 2))%R ].
Proof.
  split; [|split].
  - intros F SF. repeat split.
  - unfold FlatCube.cubeVertices, FlatCube.half, lit.
    cbn [vertices_of of_int fdiv fneg R_Scalar].
    repeat (constructor; [cbn [vx vy vz]; tauto|]). constructor.
  - unfold FlatCube.cubeVertices, FlatCube.half, lit.
    cbn [vertices_of triangles_of map of_int fdiv fneg R_Scalar].
    unfold facing, tri_normal, dot, cross, vsub.
    cbn [vx vy vz fadd fsub fmul R_Scalar].
    repeat (apply cons_eq; [field|]). reflexivity.
Qed.

(** X28. Every cube of [test3.cpp] is built from the 108 floats of
    [cubeVertices], for every arithmetic and state of the graphics API: the
    buffer under its name is that array, and its [Draw] issues
    [glDrawArrays(GL_TRIANGLES, 0, 36)]. *)
Theorem flat_Cube_draws_36
        (F : Type) (SF : Scalar F) (g : GL F) :
  let cube := eval FlatCube.Cube_ctor g in
  let g1 := exec FlatCube.Cube_ctor g in
  buffer_store g1 !! VBO (Cube_Object cube) = Some FlatCube.cubeVertices /\
  calls (exec (Draw (Cube_Object cube)) g1) =
  calls g1 ++ [glBindVertexArray (VAO (Cube_Object cube));
               glDrawArrays 0 36;
               glBindVertexArray 0].
Proof.
  cbv zeta. unfold FlatCube.Cube_ctor, eval, exec, mbind, GLM_bind, mret, GLM_ret.
  pose proof (Object_then_Program_uploads
                (FlatCube.cubeVertices (F:=F))
                vertexShaderSource fragmentShaderSource g) as Hup.
  change (Z.of_nat (length (FlatCube.cubeVertices (F:=F)))) with 108%Z in Hup.
  destruct (Object_ctor _ _ g) as [base g1].
  destruct (Program_ctor _ _ g1) as [p g2].
  cbn [fst snd Cube_Object]. destruct Hup as [Hstore Hcount].
  split; [exact Hstore|].
  pose proof (Draw_run base g2) as Hdraw. unfold exec in Hdraw.
  rewrite Hdraw. cbn [calls]. rewrite Hcount. reflexivity.
Qed.
